(** * firebase-rest-firestore: [src/types.ts]

  A shallow embedding of [LiteralDocumentReference] (the lazily parsed
  document reference) and of the [FirestoreFieldValue] union, with the
  properties of the specification stated and proved over it.

  Strings are Rocq [string]s, read as the UTF-8 bytes of the ECMAScript
  string; every character the code inspects (["/"], ["?"], ["#"], ...) is
  ASCII, so splitting and joining agree with the UTF-16 view, and the URL
  parser percent-encodes a code point above U+007E byte by byte. *)

From Stdlib Require Import ZArith Ascii String Floats.PrimFloat.
From stdpp Require Import base option list strings gmap.

Local Open Scope char_scope.
Local Open Scope stdpp_scope.

(** ** ECMAScript strings and arrays *)

Module JS.

(** [s.split(sep)] for a one-character separator: never the empty array. *)
Fixpoint split (sep : ascii) (s : string) : list string :=
  match s with
  | EmptyString => [EmptyString]
  | String c s' =>
      if Ascii.eqb c sep then EmptyString :: split sep s'
      else match split sep s' with
           | [] => [String c EmptyString]
           | seg :: segs => String c seg :: segs
           end
  end.

(** [a.join(sep)] *)
Fixpoint join (sep : string) (a : list string) : string :=
  match a with
  | [] => ""
  | [x] => x
  | x :: rest => x +:+ sep +:+ join sep rest
  end.

(** [a[i]]: [None] is [undefined]. *)
Definition get {A} (a : list A) (i : Z) : option A :=
  if (i <? 0)%Z then None else a !! Z.to_nat i.

(** A relative index of [slice], clamped to [0 .. len]. *)
Definition relative_index (len i : Z) : Z :=
  if (i <? 0)%Z then Z.max (len + i) 0 else Z.min i len.

(** [a.slice(start, end)] *)
Definition slice {A} (a : list A) (start end_ : Z) : list A :=
  let len := Z.of_nat (length a) in
  let k := relative_index len start in
  let final := relative_index len end_ in
  take (Z.to_nat (Z.max (final - k) 0)) (drop (Z.to_nat k) a).

(** [!v] on a value of type [string | undefined]. *)
Definition falsy (v : option string) : bool :=
  match v with
  | None => true
  | Some EmptyString => true
  | Some _ => false
  end.

(** The first [n] characters of [s]. *)
Fixpoint take_chars (n : nat) (s : string) : string :=
  match n, s with
  | S n', String c s' => String c (take_chars n' s')
  | _, _ => EmptyString
  end.

End JS.

(** ** TypeScript types and the values assignable to them

  [FirestoreFieldValue] is a type declaration. It is embedded as what it
  is, a type expression, together with the relation between a type and the
  values that are assignable to it. Assignability is structural: an object
  type asks for its properties and says nothing of others. *)

Module TS.

(** An ECMAScript value, as far as these types tell values apart. *)
#[warnings="-register-all"]
Inductive value : Type :=
| undefined
| null
| boolean (b : bool)
| number (x : float)
| text (s : string)
| object (properties : gmap string value)
| array (items : list value).

(** A type expression. [alias] is the type alias under declaration, where
    its own declaration refers to it. *)
#[warnings="-register-all"]
Inductive type : Type :=
| string_type
| number_type
| boolean_type
| null_type
| object_type (properties : list (string * type))   (* { k: T; ... } *)
| record_type (t : type)                            (* Record<string, T> *)
| array_type (t : type)                             (* T[] *)
| union_type (members : list type)                  (* T | ... *)
| alias.

Section assignable.
Variable declared : type.

(** [has t v]: the value [v] is assignable to the type [t], when the alias
    stands for [declared]. *)
#[warnings="-register-all"]
Inductive has : type → value → Prop :=
| has_string s : has string_type (text s)
| has_number x : has number_type (number x)
| has_boolean b : has boolean_type (boolean b)
| has_null : has null_type null
| has_object properties fields :
    Forall (λ kt, ∃ x, fields !! kt.1 = Some x ∧ has kt.2 x) properties →
    has (object_type properties) (object fields)
| has_record t fields :
    map_Forall (λ _ x, has t x) fields → has (record_type t) (object fields)
| has_array t items : Forall (has t) items → has (array_type t) (array items)
| has_union members t v : t ∈ members → has t v → has (union_type members) v
| has_alias v : has declared v → has alias v.

End assignable.

(** Does the type expression refer to the alias? *)
Fixpoint mentions_alias (t : type) : bool :=
  match t with
  | object_type properties =>
      existsb (λ '(_, t'), mentions_alias t') properties
  | record_type t' | array_type t' => mentions_alias t'
  | union_type members => existsb mentions_alias members
  | alias => true
  | _ => false
  end.

(** [Pick<T, K>]: the properties of [T] that [K] names. *)
Definition pick (t : type) (keys : list string) : type :=
  match t with
  | object_type properties =>
      object_type
        (List.filter (λ '(k, _), existsb (String.eqb k) keys) properties)
  | _ => t
  end.

(** How deep objects and arrays are nested in a value. *)
Fixpoint depth (v : value) : nat :=
  match v with
  | object fields => S (map_fold (λ _ x d, depth x `max` d) 0 fields)
  | array items => S (foldr (λ x d, depth x `max` d) 0 items)
  | _ => 0
  end.

End TS.

(** ** The URL parser, as far as [parse] drives it

  [URLPattern.exec] with a string argument parses it as a URL, with the
  [URL] class of the platform that the code runs on, and matches each
  component of the result. The class is no part of the repository; it is
  embedded as the URL Standard (url.spec.whatwg.org) defines the basic URL
  parser. The argument is always [https://hostname/] followed by the
  reference, so the scheme, authority and host states consume
  [https://hostname] and the rest is handled by the path start and path
  states of a special (https) URL.

  Two things are left to the platform and taken as parameters:
  - whether [^] is percent-encoded in a path: the character is in the
    path percent-encode set of the standard as it is now and was not in
    earlier versions of it, which some parsers follow;
  - which authority (credentials, host and port) the parser accepts
    between [//] and the path of a scheme-relative URL: host parsing
    (IDNA, IPv4 and IPv6 addresses, ports) is not embedded. *)

Module URL.

Class Platform : Type := {
  (** is U+005E (^) in the path percent-encode set? *)
  encodes_caret : bool;
  (** do the authority, host and port states accept this authority of
      an [https] URL? *)
  accepts_authority : string → bool
}.

Definition code (c : ascii) : N := N_of_ascii c.

Definition is_c0_control_or_space (c : ascii) : bool := (code c <=? 32)%N.

Definition is_ascii_tab_or_newline (c : ascii) : bool :=
  (code c =? 9)%N || (code c =? 10)%N || (code c =? 13)%N.

(** Trailing C0 controls and spaces are removed from the input. *)
Fixpoint strip_trailing (s : string) : string :=
  match s with
  | EmptyString => EmptyString
  | String c s' =>
      match strip_trailing s' with
      | EmptyString =>
          if is_c0_control_or_space c then EmptyString
          else String c EmptyString
      | r => String c r
      end
  end.

(** Leading C0 controls and spaces are removed from the input. *)
Fixpoint strip_leading (s : string) : string :=
  match s with
  | EmptyString => EmptyString
  | String c s' =>
      if is_c0_control_or_space c then strip_leading s' else s
  end.

(** All ASCII tabs and newlines are removed from the input. *)
Fixpoint remove_tab_newline (s : string) : string :=
  match s with
  | EmptyString => EmptyString
  | String c s' =>
      if is_ascii_tab_or_newline c then remove_tab_newline s'
      else String c (remove_tab_newline s')
  end.

Section parser.
Context {platform : Platform}.

(** The path percent-encode set: the C0 control set (C0 controls and
    everything above [~]), then space, the double quote, [#], [<], [>]
    (the query set) and
    [?], [`], [{], [}], and [^] where the platform has it in the set. *)
Definition in_path_percent_encode_set (c : ascii) : bool :=
  (code c <=? 31)%N || (126 <? code c)%N
  || (code c =? 32)%N || (code c =? 34)%N || (code c =? 35)%N
  || (code c =? 60)%N || (code c =? 62)%N
  || (code c =? 63)%N || ((code c =? 94)%N && encodes_caret)
  || (code c =? 96)%N || (code c =? 123)%N || (code c =? 125)%N.

Definition hex_digit (n : N) : ascii :=
  match String.get (N.to_nat n) "0123456789ABCDEF" with
  | Some d => d
  | None => "0"
  end.

(** [%XX] with upper-case hexadecimal digits *)
Definition percent_encode_byte (c : ascii) : string :=
  String "%" (String (hex_digit (code c / 16))
             (String (hex_digit (code c mod 16)) EmptyString)).

Definition utf8_percent_encode (c : ascii) : string :=
  if in_path_percent_encode_set c then percent_encode_byte c
  else String c EmptyString.

Definition ascii_lowercase (c : ascii) : ascii :=
  if ((65 <=? code c)%N && (code c <=? 90)%N)%bool
  then ascii_of_N (code c + 32) else c.

Fixpoint lowercase (s : string) : string :=
  match s with
  | EmptyString => EmptyString
  | String c s' => String (ascii_lowercase c) (lowercase s')
  end.

(** A single-dot path segment is [.] or [%2e], ignoring ASCII case. *)
Definition is_single_dot (buffer : string) : bool :=
  bool_decide (lowercase buffer ∈ ["."; "%2e"]).

(** A double-dot path segment is [..], [.%2e], [%2e.] or [%2e%2e],
    ignoring ASCII case. *)
Definition is_double_dot (buffer : string) : bool :=
  bool_decide (lowercase buffer ∈ [".."; ".%2e"; "%2e."; "%2e%2e"]).

(** Shorten a path (the scheme is not [file]): drop the last segment, if
    there is one. *)
Definition shorten (path : list string) : list string := removelast path.

(** What the path state does with [buffer] when a segment ends;
    [slash] tells whether the segment was ended by [/] or [\]. *)
Definition end_segment (path : list string) (buffer : string) (slash : bool)
  : list string :=
  if is_double_dot buffer then
    if slash then shorten path else shorten path ++ [EmptyString]
  else if is_single_dot buffer then
    if slash then path else path ++ [EmptyString]
  else path ++ [buffer].

Definition is_slash (c : ascii) : bool :=
  Ascii.eqb c "/" || Ascii.eqb c "\".

Definition starts_query_or_fragment (c : ascii) : bool :=
  Ascii.eqb c "?" || Ascii.eqb c "#".

(** The path state of a special URL. The query and the fragment that may
    follow are matched by the pattern's wildcards and are not kept. *)
Fixpoint path_state (input : string) (path : list string) (buffer : string)
  : list string :=
  match input with
  | EmptyString => end_segment path buffer false
  | String c rest =>
      if is_slash c then path_state rest (end_segment path buffer true) ""
      else if starts_query_or_fragment c then end_segment path buffer false
      else path_state rest path (buffer +:+ utf8_percent_encode c)
  end.

(** The path start state of a special URL: a leading [/] or [\] is
    consumed, anything else is left to the path state. *)
Definition path_start_state (input : string) : list string :=
  match input with
  | String c rest =>
      if is_slash c then path_state rest [] "" else path_state input [] ""
  | EmptyString => path_state input [] ""
  end.

(** The URL path serializer: every segment preceded by [/]. *)
Fixpoint serialize_path (path : list string) : string :=
  match path with
  | [] => ""
  | seg :: rest => "/" +:+ seg +:+ serialize_path rest
  end.

(** [s] without the prefix [p], when it has it. *)
Fixpoint strip_prefix (p s : string) : option string :=
  match p, s with
  | EmptyString, _ => Some s
  | String a p', String b s' =>
      if Ascii.eqb b a then strip_prefix p' s' else None
  | String _ _, EmptyString => None
  end.

(** Where the host ends: at the end of the input or before one of
    [/ \ ? #]. *)
Definition host_ends (rest : string) : bool :=
  match rest with
  | EmptyString => true
  | String c _ => is_slash c || starts_query_or_fragment c
  end.

(** The path of [new URL(input)] for an input on the origin
    [https://hostname]; [None] for any other input, which [parse] never
    builds. *)
Definition path (input : string) : option (list string) :=
  let input := remove_tab_newline (strip_trailing (strip_leading input)) in
  match strip_prefix "https://hostname" input with
  | Some rest =>
      if host_ends rest then Some (path_start_state rest) else None
  | None => None
  end.

(** [new URL(input).pathname] *)
Definition pathname (input : string) : option string :=
  serialize_path <$> path input.

(** *** A path parsed against a base URL

  [new URL(input, "https://example.com")] for an input that starts with
  [/]: there is no scheme, so the relative state consumes the [/] and the
  relative slash state decides between a path on the host of the base and
  a scheme-relative URL with an authority of its own. *)

(** The special authority ignore slashes state: every further [/] and [\]
    is skipped. *)
Fixpoint special_authority_ignore_slashes_state (input : string) : string :=
  match input with
  | EmptyString => EmptyString
  | String c rest =>
      if is_slash c then special_authority_ignore_slashes_state rest
      else input
  end.

(** The authority state reads up to the end of the input or one of
    [/ \ ? #]: the authority, and what is left for the path start
    state. *)
Fixpoint authority_state (input : string) : string * string :=
  match input with
  | EmptyString => (EmptyString, EmptyString)
  | String c rest =>
      if is_slash c || starts_query_or_fragment c then (EmptyString, input)
      else let '(authority, rest') := authority_state rest in
           (String c authority, rest')
  end.

(** What follows the [//] of a scheme-relative URL; [None] is the failure
    of the parser on an authority that it does not accept. *)
Definition scheme_relative (input : string) : option (list string) :=
  let '(authority, rest) :=
    authority_state (special_authority_ignore_slashes_state input) in
  if accepts_authority authority then Some (path_start_state rest) else None.

(** The relative slash state: a second [/] or [\] starts an authority,
    anything else belongs to the path. *)
Definition relative_slash_state (input : string) : option (list string) :=
  match input with
  | String c rest =>
      if is_slash c then scheme_relative rest
      else Some (path_state input [] "")
  | EmptyString => Some (path_state input [] "")
  end.

(** The path of [new URL(input, "https://example.com")] for an input that
    starts with [/]; [None] when the parser fails, and for any other
    input, which [exec] never builds from a pathname. *)
Definition path_on_base (input : string) : option (list string) :=
  let input := remove_tab_newline (strip_trailing (strip_leading input)) in
  match input with
  | String c rest =>
      if Ascii.eqb c "/" then relative_slash_state rest else None
  | EmptyString => None
  end.

End parser.

End URL.

(** ** Regular expressions with capture groups

  The backtracking matcher of ECMAScript, for the constructs that a
  compiled pathname pattern uses. A continuation receives what is left of
  the input and the captures made so far; alternatives are tried in the
  order in which the language tries them. No group of these patterns is
  captured more than once in a match, so the reset of the captures of a
  repeated group is left out. *)

Module RegExp.

Inductive regex : Type :=
| Empty
| Char (c : ascii)                (* a literal character *)
| NotChar (c : ascii)             (* [^c] *)
| Seq (r1 r2 : regex)
| Opt (r : regex)                 (* (?:r)?  greedy *)
| Star (r : regex)                (* (?:r)*  greedy *)
| LazyPlus (r : regex)            (* (?:r)+? lazy *)
| Group (i : nat) (r : regex).    (* the i-th capturing group *)

Definition captures : Type := gmap nat string.
Definition continuation : Type := string → captures → option captures.

Definition or_else (a : option captures) (b : option captures)
  : option captures :=
  match a with
  | Some x => Some x
  | None => b
  end.

(** An iteration of a quantifier that may be skipped has to consume
    input. *)
Definition progress (s s' : string) : bool :=
  (String.length s' <? String.length s)%nat.

Definition matcher : Type := string → captures → continuation → option captures.

(** Greedy repetition of [body]: another iteration first, the rest of the
    pattern after it. [n] bounds the iterations by the length of the
    input, which each of them shortens. *)
Fixpoint star_loop (body : matcher) (k : continuation) (n : nat)
  (s : string) (g : captures) {struct n} : option captures :=
  match n with
  | O => k s g
  | S n' =>
      or_else
        (body s g (λ s' g',
           if progress s s' then star_loop body k n' s' g' else None))
        (k s g)
  end.

(** Lazy repetition of [body]: the rest of the pattern first, another
    iteration after it. *)
Fixpoint lazy_loop (body : matcher) (k : continuation) (n : nat)
  (s : string) (g : captures) {struct n} : option captures :=
  or_else (k s g)
    (match n with
     | O => None
     | S n' =>
         body s g (λ s' g',
           if progress s s' then lazy_loop body k n' s' g' else None)
     end).

Fixpoint run (r : regex) (s : string) (g : captures) (k : continuation)
  {struct r} : option captures :=
  match r with
  | Empty => k s g
  | Char c =>
      match s with
      | String c' s' => if Ascii.eqb c' c then k s' g else None
      | EmptyString => None
      end
  | NotChar c =>
      match s with
      | String c' s' => if Ascii.eqb c' c then None else k s' g
      | EmptyString => None
      end
  | Seq r1 r2 => run r1 s g (λ s' g', run r2 s' g' k)
  | Opt r' =>
      or_else (run r' s g (λ s' g', if progress s s' then k s' g' else None))
              (k s g)
  | Star r' => star_loop (run r') k (String.length s) s g
  | LazyPlus r' =>
      run r' s g (λ s' g', lazy_loop (run r') k (String.length s') s' g')
  | Group i r' =>
      run r' s g
        (λ s' g',
           k s' (<[i := JS.take_chars (String.length s - String.length s') s]> g'))
  end.

(** The characters of a string, one after the other. *)
Fixpoint literal (t : string) : regex :=
  match t with
  | EmptyString => Empty
  | String c t' => Seq (Char c) (literal t')
  end.

Definition at_end : continuation :=
  λ s g, match s with EmptyString => Some g | String _ _ => None end.

(** [/^r$/.exec(s)]: the captures of the match, if [r] matches all of
    [s]. *)
Definition exec (r : regex) (s : string) : option captures :=
  run r s ∅ at_end.

End RegExp.

(** ** URLPattern

  [import { URLPattern } from "urlpattern-polyfill"]: the library is no
  part of the repository. Its pattern syntax, the compilation to a regular
  expression and [exec] are embedded as the URL Pattern Standard
  (urlpattern.spec.whatwg.org, which the doc comment of [parse] points to)
  defines them, for what the pathname pattern of
  [LiteralDocumentReference] uses: fixed text and named groups with an
  optional modifier; and [exec] canonicalizes the pathname of its input
  the way the library does, by parsing it once more. *)

Module URLPattern.
Import RegExp.

Inductive modifier : Type := none | optional | zero_or_more | one_or_more.

Inductive part : Type :=
| fixed_text (value : string)
| segment_wildcard (name : string) (prefix : string) (m : modifier).

(** *** Parsing a pattern string *)

Definition is_name_char (c : ascii) : bool :=
  let n := URL.code c in
  ((48 <=? n)%N && (n <=? 57)%N) || ((65 <=? n)%N && (n <=? 90)%N)
  || ((97 <=? n)%N && (n <=? 122)%N) || (n =? 95)%N || (n =? 36)%N.

Definition modifier_of (c : ascii) : option modifier :=
  if Ascii.eqb c "?" then Some optional
  else if Ascii.eqb c "*" then Some zero_or_more
  else if Ascii.eqb c "+" then Some one_or_more
  else None.

(** Group syntax that the pattern at hand does not use. *)
Definition is_unsupported (c : ascii) : bool :=
  bool_decide (c ∈ ["{"; "}"; "("; ")"; "\"; "*"; "+"; "?"]%char).

Definition snoc (s : string) (c : ascii) : string :=
  s +:+ String c EmptyString.

(** Split off a final [/], the prefix code point of a pathname. *)
Fixpoint split_prefix (pending : string) : string * string :=
  match pending with
  | EmptyString => (EmptyString, EmptyString)
  | String c EmptyString =>
      if Ascii.eqb c "/" then (EmptyString, "/") else (pending, EmptyString)
  | String c rest =>
      let '(text, prefix) := split_prefix rest in (String c text, prefix)
  end.

Definition add_fixed (parts : list part) (pending : string) : list part :=
  match pending with
  | EmptyString => parts
  | _ => parts ++ [fixed_text pending]
  end.

Inductive parser_state : Type :=
| in_text (parts : list part) (pending : string)
| in_name (parts : list part) (prefix name : string).

Definition text_step (parts : list part) (pending : string) (c : ascii)
  : option parser_state :=
  if Ascii.eqb c ":" then
    let '(text, prefix) := split_prefix pending in
    Some (in_name (add_fixed parts text) prefix EmptyString)
  else if is_unsupported c then None
  else Some (in_text parts (snoc pending c)).

Definition parser_step (st : parser_state) (c : ascii) : option parser_state :=
  match st with
  | in_text parts pending => text_step parts pending c
  | in_name parts prefix name =>
      if is_name_char c then Some (in_name parts prefix (snoc name c))
      else match name with
           | EmptyString => None
           | _ =>
               match modifier_of c with
               | Some m =>
                   Some (in_text (parts ++ [segment_wildcard name prefix m])
                                 EmptyString)
               | None =>
                   text_step (parts ++ [segment_wildcard name prefix none])
                             EmptyString c
               end
           end
  end.

Fixpoint parser_run (st : parser_state) (pattern : string)
  : option (list part) :=
  match pattern with
  | String c rest => st' ← parser_step st c; parser_run st' rest
  | EmptyString =>
      match st with
      | in_text parts pending => Some (add_fixed parts pending)
      | in_name parts prefix EmptyString => None
      | in_name parts prefix name =>
          Some (parts ++ [segment_wildcard name prefix none])
      end
  end.

Definition parse_pattern (pattern : string) : option (list part) :=
  parser_run (in_text [] EmptyString) pattern.

(** *** Generating the regular expression and the name list *)

(** The segment wildcard of a pathname: [[^\/]+?] *)
Definition segment : regex := LazyPlus (NotChar "/").

Definition generate_part (i : nat) (p : part) : regex :=
  match p with
  | fixed_text value => literal value
  | segment_wildcard _ EmptyString none => Group i segment
  | segment_wildcard _ EmptyString optional => Opt (Group i segment)
  | segment_wildcard _ EmptyString zero_or_more => Group i (Star segment)
  | segment_wildcard _ EmptyString one_or_more =>
      Group i (Seq segment (Star segment))
  | segment_wildcard _ prefix none => Seq (literal prefix) (Group i segment)
  | segment_wildcard _ prefix optional =>
      Opt (Seq (literal prefix) (Group i segment))
  | segment_wildcard _ prefix one_or_more =>
      Seq (literal prefix)
          (Group i (Seq segment (Star (Seq (literal prefix) segment))))
  | segment_wildcard _ prefix zero_or_more =>
      Opt (Seq (literal prefix)
               (Group i (Seq segment (Star (Seq (literal prefix) segment)))))
  end.

(** Groups are numbered from 1 in the order of their names. *)
Fixpoint generate (i : nat) (parts : list part) : regex * list string :=
  match parts with
  | [] => (Empty, [])
  | fixed_text value :: rest =>
      let '(r, names) := generate i rest in
      (Seq (generate_part i (fixed_text value)) r, names)
  | segment_wildcard name prefix m :: rest =>
      let '(r, names) := generate (S i) rest in
      (Seq (generate_part i (segment_wildcard name prefix m)) r,
       name :: names)
  end.

(** The compiled pathname component; the seven other components of a
    pattern built from [{ pathname }] alone are the wildcard, which
    matches whatever the URL has there. *)
Record t : Type := {
  regexp : regex;
  names : list string
}.

(** [new URLPattern({ pathname })]; [None] is the [TypeError] of a
    pattern that does not parse. *)
Definition new (pathname : string) : option t :=
  parts ← parse_pattern pathname;
  let '(r, ns) := generate 1 parts in
  Some {| regexp := r; names := ns |}.

Record component_result : Type := {
  input : string;
  groups : gmap string string     (* an absent key reads [undefined] *)
}.

Record result : Type := {
  pathname : component_result
}.

Fixpoint collect_groups (i : nat) (names : list string) (c : captures)
  : gmap string string :=
  match names with
  | [] => ∅
  | name :: rest =>
      let g := collect_groups (S i) rest c in
      match c !! i with
      | Some v => <[name := v]> g
      | None => g
      end
  end.

Section exec.
Context {platform : URL.Platform}.

(** [canonicalizePathname(pathname, protocol, isPattern)] of the library,
    for the pathname of a URL of the special scheme [https]: unless it is
    empty, the pathname is parsed again, as a URL on the base
    [https://example.com], and the pathname of that URL is taken. A
    pathname that starts with [//] is scheme-relative there: what follows
    is an authority, and the pathname begins behind it. [None] is the
    [TypeError] of [new URL]. *)
Definition canonicalize_pathname (pathname : string) : option string :=
  match pathname with
  | EmptyString => Some pathname
  | _ => URL.serialize_path <$> URL.path_on_base pathname
  end.

(** [pattern.exec(input)] for a string input: [None] is [null], also when
    the input does not parse as a URL or its pathname cannot be
    canonicalized. The protocol, the host, the search and the hash of the
    URL are matched by wildcards, which accept them whatever they are;
    what decides is the pathname. *)
Definition exec (pattern : t) (input : string) : option result :=
  pathname ← URL.pathname input;
  path ← canonicalize_pathname pathname;
  c ← RegExp.exec (regexp pattern) path;
  Some {| pathname := {| input := path;
                         groups := collect_groups 1 (names pattern) c |} |}.

End exec.

End URLPattern.

(** ** LiteralDocumentReference *)

Module LiteralDocumentReference.

(** The object: its one field. *)
Record t : Type := { referenceValue : string }.

(** [new Error(message)] *)
Record Error : Type := { message : string }.

Inductive completion (A : Type) : Type :=
| Return (a : A)
| Throw (e : Error).
Arguments Return {A} a.
Arguments Throw {A} e.

(** A method or getter runs on the receiver [this]; it returns or throws,
    and leaves the receiver in some state. *)
Definition method (A : Type) : Type := t → completion A * t.

Definition ret {A} (a : A) : method A := λ this, (Return a, this).
Definition throw {A} (e : Error) : method A := λ this, (Throw e, this).
Definition bind {A B} (m : method A) (f : A → method B) : method B :=
  λ this,
    match m this with
    | (Return a, this') => f a this'
    | (Throw e, this') => (Throw e, this')
    end.
(** [this.referenceValue] *)
Definition this_referenceValue : method string :=
  λ this, (Return (referenceValue this), this).

#[export] Instance method_ret : MRet method := @ret.
#[export] Instance method_bind : MBind method := λ A B f m, bind m f.

(** [constructor(options)]: the field is copied; the body has no
    statement that can throw. *)
Definition constructor (options : t) : completion t :=
  Return {| referenceValue := referenceValue options |}.

(** The source text of the static [pattern]. *)
Definition pattern_pathname : string :=
  "/projects/:project_id/databases/:database_id/documents/:document_path*".

Definition compiled {A} (o : option A) : Type :=
  match o with Some _ => unit | None => Empty_set end.

Definition the {A} (o : option A) : compiled o → A :=
  match o with
  | Some a => λ _, a
  | None => λ e, match e with end
  end.

(** [private static pattern = new URLPattern({ pathname: ... })]. The
    object is shared by all references; [exec] does not change it (its
    regular expressions have no global or sticky flag), so it is a
    constant here. *)
Definition pattern : URLPattern.t :=
  the (URLPattern.new pattern_pathname) tt.

(** What [parse] returns. *)
Record parsed : Type := {
  parsed_project_id : string;
  parsed_database_id : string;
  parsed_document_path : string
}.

(** [if (!v) throw e], after which [v] is a string. *)
Definition unless_falsy (v : option string) (e : Error) : method string :=
  match v with
  | Some s => if JS.falsy v then throw e else mret s
  | None => throw e
  end.

Section getters.
Context {platform : URL.Platform}.

Definition parse : method parsed :=
  reference ← this_referenceValue;
  match URLPattern.exec pattern ("https://hostname/" +:+ reference) with
  | None =>
      throw {| message := "Invalid document path. Path does not match pattern." |}
  | Some result =>
      let groups := URLPattern.groups (URLPattern.pathname result) in
      project_id ← unless_falsy (groups !! "project_id")
        {| message := "Invalid document path. Path does not match pattern." |};
      database_id ← unless_falsy (groups !! "database_id")
        {| message := "Invalid document path. Path does not match pattern." |};
      document_path ← unless_falsy (groups !! "document_path")
        {| message := "Invalid document path. Path does not match pattern." |};
      mret {| parsed_project_id := project_id;
              parsed_database_id := database_id;
              parsed_document_path := document_path |}
  end.

(** [get project_id()] *)
Definition project_id : method string :=
  p ← parse; mret (parsed_project_id p).

(** [get database_id()] *)
Definition database_id : method string :=
  p ← parse; mret (parsed_database_id p).

(** [get id()]: [None] would be [undefined], the value of an index out
    of range. *)
Definition id : method (option string) :=
  p ← parse;
  let path := parsed_document_path p in
  let parts := JS.split "/" path in
  let docId := JS.get parts (Z.of_nat (length parts) - 1) in
  mret docId.

(** [get collectionPath()] *)
Definition collectionPath : method string :=
  p ← parse;
  let path := parsed_document_path p in
  let parts := JS.split "/" path in
  let collectionPath :=
    JS.join "/" (JS.slice parts 0 (Z.of_nat (length parts) - 1)) in
  mret collectionPath.

(** [get path()] *)
Definition path : method string :=
  p ← parse; mret (parsed_document_path p).

(** The value a getter completes with, ignoring the receiver. *)
Definition eval {A} (m : method A) (reference : string) : completion A :=
  fst (m {| referenceValue := reference |}).

(** *** Sequences of accesses *)

Inductive accessor : Type :=
| get_project_id | get_database_id | get_path | get_id | get_collectionPath.

(** The five getters at one type: a string, or [undefined]. *)
Definition access (a : accessor) : method (option string) :=
  match a with
  | get_project_id => v ← project_id; mret (Some v)
  | get_database_id => v ← database_id; mret (Some v)
  | get_path => v ← path; mret (Some v)
  | get_id => id
  | get_collectionPath => v ← collectionPath; mret (Some v)
  end.

(** A caller evaluates getters one after the other, catching what they
    throw; the outcomes are collected in order. *)
Fixpoint access_all (calls : list accessor) (this : t)
  : list (completion (option string)) * t :=
  match calls with
  | [] => ([], this)
  | a :: rest =>
      let '(outcome, this') := access a this in
      let '(outcomes, this'') := access_all rest this' in
      (outcome :: outcomes, this'')
  end.

End getters.

(** The type of an instance: the field and the five getters. The private
    [parse] is no property that [Pick] could name. *)
Definition instance : TS.type :=
  TS.object_type
    [("referenceValue", TS.string_type);
     ("project_id", TS.string_type);
     ("database_id", TS.string_type);
     ("id", TS.string_type);
     ("collectionPath", TS.string_type);
     ("path", TS.string_type)].

End LiteralDocumentReference.

(** ** LiteralGeoPointValue and FirestoreFieldValue *)

Module LiteralGeoPointValue.

(** [number] is an IEEE 754 double. The ranges of the two fields are
    documented in the source and checked nowhere. *)
Record geoPoint : Type := { latitude : float; longitude : float }.

Record t : Type := { geoPointValue : geoPoint }.

Definition constructor (options : t) : t :=
  {| geoPointValue := geoPointValue options |}.

(** The type of an instance. *)
Definition instance : TS.type :=
  TS.object_type
    [("geoPointValue",
      TS.object_type
        [("latitude", TS.number_type); ("longitude", TS.number_type)])].

End LiteralGeoPointValue.

Module FirestoreFieldValue.
Import TS.

(** The type alias, member by member in the order of the source. *)
Definition t : type :=
  union_type
    [object_type [("stringValue", string_type)];
     object_type [("integerValue", number_type)];
     object_type [("doubleValue", number_type)];
     object_type [("booleanValue", boolean_type)];
     object_type [("nullValue", null_type)];
     object_type [("timestampValue", string_type)];
     pick LiteralGeoPointValue.instance ["geoPointValue"];
     pick LiteralDocumentReference.instance ["referenceValue"];
     object_type [("mapValue", object_type [("fields", record_type alias)])];
     object_type [("arrayValue", object_type [("values", array_type alias)])]].

(** A value of the type. *)
Definition value (v : TS.value) : Prop := has t t v.

(** The members of the union. *)
Definition members : list type :=
  match t with
  | union_type members => members
  | _ => []
  end.

Definition properties (member : type) : list (string * type) :=
  match member with
  | object_type properties => properties
  | _ => []
  end.

(** The variants: the properties that the members declare, each with its
    type. *)
Definition variants : list (string * type) :=
  mjoin (properties <$> members).

(** The variant tags. *)
Definition tags : list string := fst <$> variants.

(** The tags of the variants whose type refers to [FirestoreFieldValue]. *)
Definition recursive_tags : list string :=
  fst <$> List.filter (λ '(_, payload), mentions_alias payload) variants.

(** The variant tags that a value carries. *)
Definition tags_of (v : TS.value) : list string :=
  match v with
  | object fields => filter (λ tag, is_Some (fields !! tag)) tags
  | _ => []
  end.

(** [n] maps, one inside the other, around [v]. *)
Fixpoint nest_maps (n : nat) (v : TS.value) : TS.value :=
  match n with
  | O => v
  | S n' =>
      object {[ "mapValue" :=
                  object {[ "fields" :=
                              object {[ "field" := nest_maps n' v ]} ]} ]}
  end.

(** [n] arrays, one inside the other, around [v]. *)
Fixpoint nest_arrays (n : nat) (v : TS.value) : TS.value :=
  match n with
  | O => v
  | S n' =>
      object {[ "arrayValue" :=
                  object {[ "values" := array [nest_arrays n' v] ]} ]}
  end.

End FirestoreFieldValue.

(** ** The path grammar, as the specification words it *)

Module Grammar.

(** A segment: one or more characters, none of them [/]. *)
Fixpoint slash_free (s : string) : bool :=
  match s with
  | EmptyString => true
  | String c s' => negb (Ascii.eqb c "/") && slash_free s'
  end.

Definition is_segment (s : string) : bool :=
  negb (String.eqb s "") && slash_free s.

(** [text] matches
    [projects/:project_id/databases/:database_id/documents/:document_path*]
    in full, behind [lead], with the given captures: [segments] are the
    segments of the captured document path, none when the group is
    absent. *)
Definition matches (lead text : string)
  (project database : string) (segments : list string) : Prop :=
  is_segment project = true ∧ is_segment database = true
  ∧ Forall (λ x, is_segment x = true) segments
  ∧ text = lead +:+ "projects/" +:+ project +:+ "/databases/" +:+ database
           +:+ "/documents"
           +:+ match segments with
               | [] => ""
               | _ => "/" +:+ JS.join "/" segments
               end.

End Grammar.

(** ** Reference strings that URL parsing leaves as they are *)

Module Plain.
Section plain.
Context {platform : URL.Platform}.

(** A character that ends no path segment, starts no query or fragment,
    and is not percent-encoded, stripped or removed. *)
Definition char (c : ascii) : bool :=
  negb (URL.in_path_percent_encode_set c) && negb (URL.is_slash c).

Fixpoint chars (s : string) : bool :=
  match s with
  | EmptyString => true
  | String c s' => char c && chars s'
  end.

(** A segment of such characters, maybe none, that is not a dot segment:
    the path state appends it to the path as it is. *)
Definition inert_segment (s : string) : bool :=
  chars s && negb (URL.is_single_dot s) && negb (URL.is_double_dot s).

(** A non-empty such segment. *)
Definition segment (s : string) : bool :=
  negb (String.eqb s "") && inert_segment s.

(** A reference all of whose segments, empty ones included, the URL parser
    leaves as they are. *)
Definition reference (s : string) : bool :=
  forallb inert_segment (JS.split "/" s).

End plain.
End Plain.


(** ** Notions used to state and prove the properties *)

Module Aux.
Import RegExp LiteralDocumentReference.

(** The text between two segments: nothing, or something that starts with
    the separator. *)
Definition boundary (s : string) : Prop :=
  match s with
  | EmptyString => True
  | String c _ => c = "/"%char
  end.

(** Continuations of the rest of a pattern that starts with [/] or is at
    its end. *)
Definition rejects_segment_chars (k : continuation) : Prop :=
  ∀ c s g, c ≠ "/"%char → k (String c s) g = None.

(** Continuations of the end of the pattern. *)
Definition accepts_only_end (k : continuation) : Prop :=
  ∀ c s g, k (String c s) g = None.

(** No segment of the path is empty. *)
Definition all_nonempty (path : list string) : bool :=
  forallb (λ s, negb (String.eqb s "")) path.

(** The repeated [/segment] of the document path. *)
Definition more_segments : regex :=
  Star (Seq (literal "/") URLPattern.segment).

(** The optional last part of the pattern, up to the end of the path. *)
Definition document_path_part : regex :=
  Opt (Seq (literal "/")
           (Group 3 (Seq URLPattern.segment more_segments))).

(** What the compiled pattern captures from a path, segment by segment:
    the project, the database and the segments of the document path. *)
Definition captured (path : list string)
  : option (string * string * list string) :=
  match path with
  | s1 :: project :: s3 :: database :: s5 :: segments =>
      if String.eqb s1 "projects" && negb (String.eqb project "")
         && String.eqb s3 "databases" && negb (String.eqb database "")
         && String.eqb s5 "documents" && all_nonempty segments
      then Some (project, database, segments)
      else None
  | _ => None
  end.

(** The numbered captures of such a match; the third group takes part
    only when there is a document path. *)
Definition captures_of (c : string * string * list string) : captures :=
  let '(project, database, segments) := c in
  let g := <[2 := database]> (<[1 := project]> ∅) in
  match segments with
  | [] => g
  | _ => <[3 := JS.join "/" segments]> g
  end.

(** The string handed to [exec]. *)
Definition url_of (reference : string) : string :=
  "https://hostname/" +:+ reference.

(** The one message of [parse]. *)
Definition malformed : Error :=
  {| message := "Invalid document path. Path does not match pattern." |}.

(** The path without the empty segments in front. *)
Fixpoint drop_empty (path : list string) : list string :=
  match path with
  | EmptyString :: rest => drop_empty rest
  | _ => path
  end.

(** The path behind an authority: at least the empty segment. *)
Definition behind_authority (path : list string) : list string :=
  match path with
  | [] => [EmptyString]
  | _ => path
  end.

Section platform.
Context {platform : URL.Platform}.

(** What parsing its pathname once more makes of a path of segments that
    the parser leaves as they are. A path whose first segment is empty, and
    not the only one, has a pathname that starts with [//]: its first
    segment that is not empty is taken for an authority, and the path is
    what follows. Any other path is what it was. *)
Definition rebase (path : list string) : option (list string) :=
  match path with
  | EmptyString :: (_ :: _) as rest =>
      match drop_empty rest with
      | [] =>
          if URL.accepts_authority "" then Some [EmptyString] else None
      | authority :: segments =>
          if URL.accepts_authority authority
          then Some (behind_authority segments) else None
      end
  | _ => Some path
  end.

(** Plain characters and the separator between them. *)
Fixpoint inert (s : string) : bool :=
  match s with
  | EmptyString => true
  | String c s' => (Plain.char c || Ascii.eqb c "/") && inert s'
  end.

(** The path that the pattern is tried on: the path of the URL, parsed
    once more from its pathname. *)
Definition matched_path (input : string) : option (list string) :=
  path ← URL.path input; URL.path_on_base (URL.serialize_path path).

(** Its serialization: the canonical pathname of the URL. *)
Definition matched_pathname (input : string) : option string :=
  URL.pathname input ≫= URLPattern.canonicalize_pathname.

(** The outcome of [parse], read off the segments of that path. *)
Definition outcome (reference : string) : completion parsed :=
  match matched_path (url_of reference) ≫= captured with
  | Some (project, database, seg :: segments) =>
      Return {| parsed_project_id := project;
                parsed_database_id := database;
                parsed_document_path := JS.join "/" (seg :: segments) |}
  | _ => Throw malformed
  end.

End platform.

(** A host name of lower-case letters. *)
Fixpoint lower_alpha (s : string) : bool :=
  match s with
  | EmptyString => true
  | String c s' => (97 <=? URL.code c)%N && (URL.code c <=? 122)%N && lower_alpha s'
  end.

(** The platform of the examples: its parser has [^] in the path
    percent-encode set, as the URL Standard now does, and accepts the
    authorities that are a host name of lower-case letters. *)
Definition example_platform : URL.Platform :=
  {| URL.encodes_caret := true;
     URL.accepts_authority :=
       λ authority, negb (String.eqb authority "") && lower_alpha authority |}.

(** The [groups] object of a match. *)
Definition groups_of (c : string * string * list string) : gmap string string :=
  URLPattern.collect_groups 1 ["project_id"; "database_id"; "document_path"]
    (captures_of c).

Arguments groups_of : simpl never.

(** A view of what was returned; what was thrown stays as it is. *)
Definition lift {A B} (f : A → B) (c : completion A) : completion B :=
  match c with
  | Return a => Return (f a)
  | Throw e => Throw e
  end.

(** What a getter makes of the result of [parse]. *)
Definition value (a : accessor) (p : parsed) : option string :=
  match a with
  | get_project_id => Some (parsed_project_id p)
  | get_database_id => Some (parsed_database_id p)
  | get_path => Some (parsed_document_path p)
  | get_id => last (JS.split "/" (parsed_document_path p))
  | get_collectionPath =>
      Some (JS.join "/" (removelast (JS.split "/" (parsed_document_path p))))
  end.

(** The reference built from plain segments. *)
Definition reference_of (project database : string) (segments : list string)
  : string :=
  "projects/" +:+ project +:+ "/databases/" +:+ database +:+ "/documents/"
  +:+ JS.join "/" segments.

(** The string with every [\] turned into [/]. *)
Fixpoint slashes (s : string) : string :=
  match s with
  | EmptyString => EmptyString
  | String c s' =>
      String (if Ascii.eqb c "\" then "/"%char else c) (slashes s')
  end.

(** Nothing but C0 controls and spaces. *)
Fixpoint all_blank (s : string) : bool :=
  match s with
  | EmptyString => true
  | String c s' => URL.is_c0_control_or_space c && all_blank s'
  end.

(** No C0 control and no space. *)
Fixpoint no_blank (s : string) : bool :=
  match s with
  | EmptyString => true
  | String c s' => negb (URL.is_c0_control_or_space c) && no_blank s'
  end.

End Aux.

(** * Properties *)

(** ** Strings *)

Module StringFacts.

Lemma str_app_nil_l (s : string) : "" +:+ s = s.
Proof. reflexivity. Qed.

Lemma str_app_cons (c : ascii) (s t : string) :
  String c s +:+ t = String c (s +:+ t).
Proof. reflexivity. Qed.

(** Unfold [+:+] on the constructors in front of it. *)
Ltac string_app := rewrite ?str_app_cons, ?str_app_nil_l.
Tactic Notation "string_app" "in" hyp(H) :=
  rewrite ?str_app_cons, ?str_app_nil_l in H.

Lemma str_app_nil_r (s : string) : s +:+ "" = s.
Proof. induction s as [|c s IH]; string_app; [done | by rewrite IH]. Qed.

Lemma str_app_assoc (a b c : string) : (a +:+ b) +:+ c = a +:+ (b +:+ c).
Proof. induction a as [|x a IH]; string_app; [done | by rewrite IH]. Qed.

Lemma str_length_app (a b : string) :
  String.length (a +:+ b) = (String.length a + String.length b)%nat.
Proof. induction a as [|x a IH]; string_app; simpl; [done | by rewrite IH]. Qed.

Lemma take_chars_app (a b : string) :
  JS.take_chars (String.length a) (a +:+ b) = a.
Proof.
  induction a as [|x a IH]; string_app; simpl; [by destruct b | by rewrite IH].
Qed.

Lemma take_chars_all (a : string) : JS.take_chars (String.length a) a = a.
Proof. rewrite <- (str_app_nil_r a) at 2. apply take_chars_app. Qed.

Lemma str_app_inv_head (a b c : string) : a +:+ b = a +:+ c → b = c.
Proof. induction a as [|x a IH]; string_app; [done | intros [=]; auto]. Qed.

Lemma ascii_eqb_eq (a b : ascii) : Ascii.eqb a b = true ↔ a = b.
Proof. apply Ascii.eqb_eq. Qed.

Lemma ascii_eqb_neq (a b : ascii) : Ascii.eqb a b = false ↔ a ≠ b.
Proof. apply Ascii.eqb_neq. Qed.

End StringFacts.

(** ** The compiled pattern on a serialized path *)

Module MatchFacts.
Import RegExp Aux StringFacts.

Lemma or_else_None_r (a : option captures) : or_else a None = a.
Proof. by destruct a. Qed.

Lemma boundary_serialize (path : list string) :
  boundary (URL.serialize_path path).
Proof. by destruct path. Qed.

Lemma run_literal (t s : string) (g : captures) (k : continuation) :
  run (literal t) s g k
  = match URL.strip_prefix t s with Some s' => k s' g | None => None end.
Proof.
  revert s. induction t as [|a t IH]; intros s; simpl; [done |].
  destruct s as [|b s]; [done |]. destruct (Ascii.eqb b a); [apply IH | done].
Qed.

(** A word of the pattern against a whole segment of the path. *)
Lemma run_word (w seg rest : string) (g : captures) (k : continuation) :
  Grammar.slash_free w = true → Grammar.slash_free seg = true →
  boundary rest → rejects_segment_chars k →
  run (literal w) (seg +:+ rest) g k
  = if String.eqb seg w then k rest g else None.
Proof.
  intros Hw Hseg Hrest Hk. revert seg Hseg.
  induction w as [|a w IH]; intros seg Hseg; simpl.
  - destruct seg as [|c seg]; string_app; simpl; [done |].
    simpl in Hseg. apply andb_prop in Hseg as [Hc _].
    apply Hk. apply negb_true_iff, ascii_eqb_neq in Hc. done.
  - simpl in Hw. apply andb_prop in Hw as [Ha Hw].
    apply negb_true_iff, ascii_eqb_neq in Ha.
    destruct seg as [|c seg]; string_app; simpl.
    + destruct rest as [|c rest]; [done |]. simpl in Hrest. subst c.
      destruct (Ascii.eqb "/" a) eqn:E; [|done].
      apply ascii_eqb_eq in E. congruence.
    + simpl in Hseg. apply andb_prop in Hseg as [_ Hseg].
      destruct (Ascii.eqb c a); simpl; [by apply IH | done].
Qed.

Lemma lazy_loop_segment (seg rest : string) (g : captures)
  (k : continuation) (n : nat) :
  Grammar.slash_free seg = true → boundary rest → rejects_segment_chars k →
  (String.length (seg +:+ rest) ≤ n)%nat →
  lazy_loop (run (NotChar "/")) k n (seg +:+ rest) g = k rest g.
Proof.
  intros Hseg Hrest Hk. revert n.
  induction seg as [|c seg IH]; intros n Hn; string_app.
  - destruct rest as [|c rest]; [destruct n; simpl; apply or_else_None_r |].
    simpl in Hrest. subst c. destruct n; simpl; apply or_else_None_r.
  - simpl in Hseg. apply andb_prop in Hseg as [Hc Hseg].
    pose proof Hc as Hc'. apply negb_true_iff in Hc'.
    apply negb_true_iff, ascii_eqb_neq in Hc.
    rewrite str_app_cons in Hn. simpl in Hn. destruct n as [|n]; [lia |]. simpl.
    rewrite (Hk c _ g Hc). simpl. rewrite Hc'.
    assert (progress (String c (seg +:+ rest)) (seg +:+ rest) = true) as ->.
    { unfold progress. simpl. apply Nat.ltb_lt. lia. }
    apply IH; [done | lia].
Qed.

(** The segment wildcard takes a whole segment, which is not empty. *)
Lemma run_segment (seg rest : string) (g : captures) (k : continuation) :
  Grammar.slash_free seg = true → boundary rest → rejects_segment_chars k →
  run URLPattern.segment (seg +:+ rest) g k
  = if String.eqb seg "" then None else k rest g.
Proof.
  intros Hseg Hrest Hk. unfold URLPattern.segment.
  destruct seg as [|c seg]; string_app; simpl.
  - destruct rest as [|c rest]; [done |]. simpl in Hrest. by subst c.
  - simpl in Hseg. apply andb_prop in Hseg as [Hc Hseg].
    apply negb_true_iff in Hc. rewrite Hc.
    by apply lazy_loop_segment.
Qed.

Lemma join_serialize (seg : string) (path : list string) :
  JS.join "/" (seg :: path) = seg +:+ URL.serialize_path path.
Proof.
  revert seg. induction path as [|x path IH]; intros seg.
  - simpl. by rewrite str_app_nil_r.
  - change (JS.join "/" (seg :: x :: path))
      with (seg +:+ "/" +:+ JS.join "/" (x :: path)).
    by rewrite IH.
Qed.

Lemma length_serialize_cons (seg : string) (path : list string) :
  String.length (URL.serialize_path (seg :: path))
  = S (String.length seg + String.length (URL.serialize_path path)).
Proof. simpl. string_app. simpl. by rewrite str_length_app. Qed.

Lemma rejects_slash_word (w : string) (k : continuation) :
  rejects_segment_chars (λ s g, run (literal (String "/" w)) s g k).
Proof.
  intros c s g Hc. simpl.
  destruct (Ascii.eqb c "/") eqn:E; [|done].
  by apply ascii_eqb_eq in E.
Qed.

Lemma run_slash_word (w : string) (path : list string) (g : captures)
  (k : continuation) :
  Grammar.slash_free w = true →
  Forall (λ x, Grammar.slash_free x = true) path →
  rejects_segment_chars k →
  run (literal (String "/" w)) (URL.serialize_path path) g k
  = match path with
    | [] => None
    | seg :: path' =>
        if String.eqb seg w then k (URL.serialize_path path') g else None
    end.
Proof.
  intros Hw Hpath Hk. destruct path as [|seg path]; [done |].
  apply Forall_cons in Hpath as [Hseg _].
  simpl. string_app. simpl.
  apply run_word; auto using boundary_serialize.
Qed.

Lemma run_slash_group (i : nat) (path : list string) (g : captures)
  (k : continuation) :
  Forall (λ x, Grammar.slash_free x = true) path →
  rejects_segment_chars k →
  run (Seq (literal "/") (Group i URLPattern.segment))
      (URL.serialize_path path) g k
  = match path with
    | [] => None
    | seg :: path' =>
        if String.eqb seg "" then None
        else k (URL.serialize_path path') (<[i := seg]> g)
    end.
Proof.
  intros Hpath Hk. destruct path as [|seg path]; [done |].
  apply Forall_cons in Hpath as [Hseg _].
  simpl literal. simpl URL.serialize_path. string_app.
  change (run (Seq (Seq (Char "/") Empty) (Group i URLPattern.segment))
            (String "/" (seg +:+ URL.serialize_path path)) g k)
    with (run URLPattern.segment (seg +:+ URL.serialize_path path) g
            (λ s' g', k s' (<[i := JS.take_chars
                 (String.length (seg +:+ URL.serialize_path path)
                  - String.length s') (seg +:+ URL.serialize_path path)]> g'))).
  rewrite run_segment; auto using boundary_serialize.
  - destruct (String.eqb seg ""); [done |].
    rewrite str_length_app, Nat.add_sub. by rewrite take_chars_app.
  - intros c s g' Hc. by apply Hk.
Qed.

Lemma star_loop_rejects (k : continuation) (n : nat) :
  accepts_only_end k →
  rejects_segment_chars
    (star_loop (run (Seq (literal "/") URLPattern.segment)) k n).
Proof.
  intros Hk c s g Hc. destruct n as [|n]; simpl; [apply Hk |].
  apply ascii_eqb_neq in Hc. rewrite Hc. simpl. apply Hk.
Qed.

Lemma star_loop_path (path : list string) (g : captures) (k : continuation)
  (n : nat) :
  Forall (λ x, Grammar.slash_free x = true) path →
  accepts_only_end k →
  (String.length (URL.serialize_path path) ≤ n)%nat →
  star_loop (run (Seq (literal "/") URLPattern.segment)) k n
    (URL.serialize_path path) g
  = if all_nonempty path then k "" g else None.
Proof.
  intros Hpath Hk. revert n.
  induction Hpath as [|seg path Hseg Hpath IH]; intros n Hn.
  - by destruct n.
  - rewrite length_serialize_cons in Hn. destruct n as [|n]; [lia |].
    simpl URL.serialize_path. string_app.
    change (star_loop ?b k (S n) ?s g)
      with (or_else
              (b s g (λ s' g', if progress s s'
                               then star_loop b k n s' g' else None))
              (k s g)).
    rewrite Hk, or_else_None_r.
    change (run (Seq (literal "/") URLPattern.segment)
              (String "/" ?s) g ?kk)
      with (run URLPattern.segment s g kk).
    rewrite run_segment; auto using boundary_serialize.
    + simpl. destruct (String.eqb seg ""); [done |]. simpl.
      assert (progress (String "/" (seg +:+ URL.serialize_path path))
                (URL.serialize_path path) = true) as ->.
      { unfold progress. simpl. rewrite str_length_app. apply Nat.ltb_lt. lia. }
      apply IH. lia.
    + intros c s g' Hc.
      destruct (progress _ _); [|done]. by apply star_loop_rejects.
Qed.

Lemma run_more_segments (path : list string) (g : captures)
  (k : continuation) :
  Forall (λ x, Grammar.slash_free x = true) path →
  accepts_only_end k →
  run more_segments (URL.serialize_path path) g k
  = if all_nonempty path then k "" g else None.
Proof. intros Hpath Hk. by apply star_loop_path. Qed.

Lemma rejects_more_segments (k : continuation) :
  accepts_only_end k →
  rejects_segment_chars (λ s g, run more_segments s g k).
Proof. intros Hk c s g Hc. by apply star_loop_rejects. Qed.

Lemma run_document_path (path : list string) (g : captures) :
  Forall (λ x, Grammar.slash_free x = true) path →
  run (Seq document_path_part Empty) (URL.serialize_path path) g at_end
  = if all_nonempty path
    then Some match path with
              | [] => g
              | _ => <[3 := JS.join "/" path]> g
              end
    else None.
Proof.
  intros Hpath. destruct path as [|seg path]; [done |].
  apply Forall_cons in Hpath as [Hseg Hpath].
  rewrite join_serialize. simpl URL.serialize_path. string_app.
  set (s1 := seg +:+ URL.serialize_path path).
  change (run (Seq document_path_part Empty) (String "/" s1) g at_end)
    with (or_else
            (run URLPattern.segment s1 g
               (λ s2 g2, run more_segments s2 g2
                  (λ s' g',
                     if progress (String "/" s1) s'
                     then at_end s'
                            (<[3 := JS.take_chars
                                 (String.length s1 - String.length s') s1]> g')
                     else None)))
            None).
  rewrite or_else_None_r. unfold s1 at 1.
  assert (accepts_only_end
            (λ s' g',
               if progress (String "/" s1) s'
               then at_end s'
                      (<[3 := JS.take_chars
                           (String.length s1 - String.length s') s1]> g')
               else None)) as Hend.
  { intros c s g'. by destruct (progress _ _). }
  rewrite run_segment;
    auto using boundary_serialize, rejects_more_segments.
  simpl all_nonempty. destruct (String.eqb seg ""); [done |].
  cbn [negb andb]. rewrite run_more_segments by done.
  fold (all_nonempty path). destruct (all_nonempty path); [|done].
  simpl. by rewrite Nat.sub_0_r, take_chars_all.
Qed.

Lemma rejects_document_path :
  rejects_segment_chars
    (λ s g, run (Seq document_path_part Empty) s g at_end).
Proof.
  intros c s g Hc. simpl. apply ascii_eqb_neq in Hc. by rewrite Hc.
Qed.

(** The static pattern is what its source text compiles to. *)
Lemma pattern_new :
  URLPattern.new LiteralDocumentReference.pattern_pathname
  = Some LiteralDocumentReference.pattern.
Proof. reflexivity. Qed.

Lemma pattern_parts :
  URLPattern.parse_pattern LiteralDocumentReference.pattern_pathname
  = Some [URLPattern.fixed_text "/projects";
          URLPattern.segment_wildcard "project_id" "/" URLPattern.none;
          URLPattern.fixed_text "/databases";
          URLPattern.segment_wildcard "database_id" "/" URLPattern.none;
          URLPattern.fixed_text "/documents";
          URLPattern.segment_wildcard "document_path" "/"
            URLPattern.zero_or_more].
Proof. reflexivity. Qed.

Lemma pattern_regexp :
  URLPattern.regexp LiteralDocumentReference.pattern
  = Seq (literal "/projects")
      (Seq (Seq (literal "/") (Group 1 URLPattern.segment))
         (Seq (literal "/databases")
            (Seq (Seq (literal "/") (Group 2 URLPattern.segment))
               (Seq (literal "/documents")
                  (Seq document_path_part Empty))))).
Proof. reflexivity. Qed.

Lemma pattern_names :
  URLPattern.names LiteralDocumentReference.pattern
  = ["project_id"; "database_id"; "document_path"].
Proof. reflexivity. Qed.

Lemma run_seq (r1 r2 : regex) (s : string) (g : captures) (k : continuation) :
  run (Seq r1 r2) s g k = run r1 s g (λ s' g', run r2 s' g' k).
Proof. reflexivity. Qed.

(** The regular expression of the pattern decides a serialized path by its
    segments. *)
Lemma exec_serialize (path : list string) :
  Forall (λ x, Grammar.slash_free x = true) path →
  RegExp.exec (URLPattern.regexp LiteralDocumentReference.pattern)
              (URL.serialize_path path)
  = captures_of <$> captured path.
Proof.
  intros Hpath. rewrite pattern_regexp. unfold exec.
  rewrite run_seq, run_slash_word;
    [| done | done | apply (rejects_slash_word "")].
  destruct path as [|s1 path]; [done |].
  apply Forall_cons in Hpath as [_ Hpath].
  destruct (String.eqb s1 "projects") eqn:E1;
    [| by destruct path as [|? [|? [|? [|? ?]]]]; simpl; rewrite ?E1].
  rewrite run_seq, run_slash_group;
    [| done | apply (rejects_slash_word "databases")].
  destruct path as [|project path]; [done |].
  apply Forall_cons in Hpath as [_ Hpath].
  destruct (String.eqb project "") eqn:E2;
    [by destruct path as [|? [|? [|? ?]]]; simpl; rewrite ?E1, ?E2 |].
  rewrite run_seq, run_slash_word;
    [| done | done | apply (rejects_slash_word "")].
  destruct path as [|s3 path]; [done |].
  apply Forall_cons in Hpath as [_ Hpath].
  destruct (String.eqb s3 "databases") eqn:E3;
    [| by destruct path as [|? [|? ?]]; simpl; rewrite ?E1, ?E2, ?E3 ].
  rewrite run_seq, run_slash_group;
    [| done | apply (rejects_slash_word "documents")].
  destruct path as [|database path]; [done |].
  apply Forall_cons in Hpath as [_ Hpath].
  destruct (String.eqb database "") eqn:E4;
    [by destruct path as [|? ?]; simpl; rewrite ?E1, ?E2, ?E3, ?E4 |].
  rewrite run_seq, run_slash_word;
    [| done | done | apply rejects_document_path].
  destruct path as [|s5 path]; [done |].
  apply Forall_cons in Hpath as [_ Hpath].
  unfold captured. rewrite E1, E2, E3, E4. cbn [negb andb].
  destruct (String.eqb s5 "documents") eqn:E5; [| done].
  rewrite run_document_path by done. cbn [andb].
  by destruct (all_nonempty path).
Qed.

End MatchFacts.

(** ** The URL parser *)

Module URLFacts.
Import Aux StringFacts MatchFacts.

Section facts.
Context {platform : URL.Platform}.

Lemma slash_free_app (a b : string) :
  Grammar.slash_free (a +:+ b) = Grammar.slash_free a && Grammar.slash_free b.
Proof.
  induction a as [|c a IH]; string_app; simpl; [done |].
  rewrite IH. by rewrite andb_assoc.
Qed.

(** A percent-encoded byte and an unencoded character other than [/] and
    [\] have no [/] in them. *)
Lemma slash_free_percent_encode (c : ascii) :
  URL.is_slash c = false →
  Grammar.slash_free (URL.utf8_percent_encode c) = true.
Proof.
  destruct platform as [[] ?];
    destruct c as [[] [] [] [] [] [] [] []]; vm_compute; intros; congruence.
Qed.

Lemma Forall_removelast {A} (P : A → Prop) (l : list A) :
  Forall P l → Forall P (removelast l).
Proof.
  induction 1 as [|x l Hx Hl IH]; simpl; [done |].
  destruct l; [done | by constructor].
Qed.

Lemma end_segment_slash_free (path : list string) (buffer : string)
  (slash : bool) :
  Forall (λ x, Grammar.slash_free x = true) path →
  Grammar.slash_free buffer = true →
  Forall (λ x, Grammar.slash_free x = true)
         (URL.end_segment path buffer slash).
Proof.
  intros Hpath Hbuffer. unfold URL.end_segment, URL.shorten.
  repeat case_match;
    auto using Forall_removelast, Forall_app_2, Forall_removelast.
  all: apply Forall_app_2; auto using Forall_removelast.
Qed.

Lemma path_state_slash_free (input : string) (path : list string)
  (buffer : string) :
  Forall (λ x, Grammar.slash_free x = true) path →
  Grammar.slash_free buffer = true →
  Forall (λ x, Grammar.slash_free x = true)
         (URL.path_state input path buffer).
Proof.
  revert path buffer.
  induction input as [|c input IH]; intros path buffer Hpath Hbuffer; simpl.
  - by apply end_segment_slash_free.
  - destruct (URL.is_slash c) eqn:Hc.
    + apply IH; [by apply end_segment_slash_free | done].
    + destruct (URL.starts_query_or_fragment c).
      * by apply end_segment_slash_free.
      * apply IH; [done |].
        rewrite slash_free_app, Hbuffer. by apply slash_free_percent_encode.
Qed.

(** Every segment of a parsed path is free of [/]. *)
Lemma path_slash_free (input : string) (path : list string) :
  URL.path input = Some path →
  Forall (λ x, Grammar.slash_free x = true) path.
Proof.
  unfold URL.path. intros H.
  destruct (URL.strip_prefix _ _) as [rest|]; [|done].
  destruct (URL.host_ends rest); [|done].
  injection H as <-. unfold URL.path_start_state.
  destruct rest as [|c rest]; [by apply path_state_slash_free |].
  destruct (URL.is_slash c); by apply path_state_slash_free.
Qed.

(** The same holds for a path parsed against a base URL. *)
Lemma path_on_base_slash_free (input : string) (path : list string) :
  URL.path_on_base input = Some path →
  Forall (λ x, Grammar.slash_free x = true) path.
Proof.
  unfold URL.path_on_base, URL.relative_slash_state, URL.scheme_relative,
    URL.path_start_state.
  intros H. repeat case_match; simplify_eq; by apply path_state_slash_free.
Qed.

Lemma end_segment_not_nil (path : list string) (buffer : string) :
  URL.end_segment path buffer false ≠ [].
Proof.
  unfold URL.end_segment. repeat case_match; by intros [_ ?]%app_eq_nil.
Qed.

Lemma path_state_not_nil (input : string) (path : list string)
  (buffer : string) :
  URL.path_state input path buffer ≠ [].
Proof.
  revert path buffer. induction input as [|c input IH]; intros path buffer;
    simpl; [apply end_segment_not_nil |].
  repeat case_match; auto using end_segment_not_nil.
Qed.

(** A parsed path has at least one segment, so a pathname is never
    empty. *)
Lemma path_not_nil (input : string) (path : list string) :
  URL.path input = Some path → path ≠ [].
Proof.
  unfold URL.path, URL.path_start_state. intros H.
  repeat case_match; simplify_eq; apply path_state_not_nil.
Qed.

Lemma canonicalize_serialize (path : list string) :
  path ≠ [] →
  URLPattern.canonicalize_pathname (URL.serialize_path path)
  = URL.serialize_path <$> URL.path_on_base (URL.serialize_path path).
Proof.
  destruct path as [|seg rest]; [done |]. intros _.
  change (URL.serialize_path (seg :: rest))
    with (String "/" (seg +:+ URL.serialize_path rest)).
  done.
Qed.

Lemma strip_trailing_cons (c : ascii) (s : string) :
  URL.is_c0_control_or_space c = false →
  URL.strip_trailing (String c s) = String c (URL.strip_trailing s).
Proof. intros Hc. simpl. rewrite Hc. by destruct (URL.strip_trailing s). Qed.

(** The URL that [parse] builds always parses: its path is what the path
    state makes of the reference, once the trailing blanks and all tabs and
    newlines are removed from it. *)
Lemma path_of_reference (reference : string) :
  URL.path ("https://hostname/" +:+ reference)
  = Some (URL.path_state
            (URL.remove_tab_newline (URL.strip_trailing reference)) [] "").
Proof.
  unfold URL.path. string_app.
  change (URL.strip_leading (String "h" ?s)) with (String "h" s).
  by rewrite !strip_trailing_cons.
Qed.

(** *** References that the parser leaves as they are *)

Lemma inert_app (a b : string) : inert (a +:+ b) = inert a && inert b.
Proof.
  induction a as [|c a IH]; string_app; simpl; [done |].
  rewrite IH. by rewrite andb_assoc.
Qed.

Lemma chars_inert (s : string) : Plain.chars s = true → inert s = true.
Proof.
  induction s as [|c s IH]; simpl; [done |].
  intros [Hc Hs]%andb_prop. rewrite Hc, IH; done.
Qed.

Lemma inert_segment_chars (s : string) :
  Plain.inert_segment s = true → Plain.chars s = true.
Proof.
  unfold Plain.inert_segment. intros H.
  apply andb_prop in H as [H _]. by apply andb_prop in H as [H _].
Qed.

Lemma segment_inert (s : string) :
  Plain.segment s = true → Plain.inert_segment s = true.
Proof. unfold Plain.segment. by intros [_ H]%andb_prop. Qed.

Lemma segments_inert (segments : list string) :
  Forall (λ x, Plain.segment x = true) segments →
  Forall (λ x, Plain.inert_segment x = true) segments.
Proof.
  intros H. eapply Forall_impl; [exact H |]. apply segment_inert.
Qed.

Lemma inert_join (segments : list string) :
  Forall (λ x, Plain.inert_segment x = true) segments →
  inert (JS.join "/" segments) = true.
Proof.
  induction 1 as [|x l Hx Hl IH]; [done |].
  destruct l as [|y l]; [by apply chars_inert, inert_segment_chars |].
  change (JS.join "/" (x :: y :: l)) with (x +:+ "/" +:+ JS.join "/" (y :: l)).
  rewrite !inert_app, IH.
  rewrite chars_inert by by apply inert_segment_chars. done.
Qed.

Lemma inert_char_not_blank (c : ascii) :
  (Plain.char c || Ascii.eqb c "/") = true →
  URL.is_c0_control_or_space c = false ∧ URL.is_ascii_tab_or_newline c = false.
Proof.
  destruct platform as [[] ?];
    destruct c as [[] [] [] [] [] [] [] []]; vm_compute; intros; split; congruence.
Qed.

Lemma strip_trailing_inert (s : string) :
  inert s = true → URL.strip_trailing s = s.
Proof.
  induction s as [|c s IH]; simpl; [done |].
  intros [Hc Hs]%andb_prop. rewrite IH by done.
  apply inert_char_not_blank in Hc as [-> _]. by destruct s.
Qed.

Lemma remove_tab_newline_inert (s : string) :
  inert s = true → URL.remove_tab_newline s = s.
Proof.
  induction s as [|c s IH]; simpl; [done |].
  intros [Hc Hs]%andb_prop. rewrite IH by done.
  by apply inert_char_not_blank in Hc as [_ ->].
Qed.

Lemma plain_char_step (c : ascii) :
  Plain.char c = true →
  URL.is_slash c = false ∧ URL.starts_query_or_fragment c = false
  ∧ URL.utf8_percent_encode c = String c "".
Proof.
  destruct platform as [[] ?];
    destruct c as [[] [] [] [] [] [] [] []]; vm_compute; intros;
    repeat split; congruence.
Qed.

(** The path state copies plain characters into the buffer. *)
Lemma path_state_chars (seg rest : string) (path : list string)
  (buffer : string) :
  Plain.chars seg = true →
  URL.path_state (seg +:+ rest) path buffer
  = URL.path_state rest path (buffer +:+ seg).
Proof.
  revert buffer. induction seg as [|c seg IH]; intros buffer; string_app.
  - by rewrite str_app_nil_r.
  - simpl. intros [Hc Hseg]%andb_prop.
    apply plain_char_step in Hc as (-> & -> & ->).
    rewrite IH by done. by rewrite str_app_assoc.
Qed.

Lemma end_segment_inert (path : list string) (seg : string) (slash : bool) :
  Plain.inert_segment seg = true →
  URL.end_segment path seg slash = path ++ [seg].
Proof.
  unfold Plain.inert_segment, URL.end_segment. intros H.
  apply andb_prop in H as [H Hdd]. apply andb_prop in H as [_ Hd].
  apply negb_true_iff in Hdd, Hd. by rewrite Hdd, Hd.
Qed.

Lemma path_state_join (segments path : list string) :
  segments ≠ [] →
  Forall (λ x, Plain.inert_segment x = true) segments →
  URL.path_state (JS.join "/" segments) path "" = path ++ segments.
Proof.
  intros Hne Hall. revert path.
  induction Hall as [|seg l Hseg Hl IH]; intros path; [done |].
  destruct l as [|y l].
  - simpl JS.join. rewrite <- (str_app_nil_r seg) at 1.
    rewrite path_state_chars by by apply inert_segment_chars.
    simpl. by apply end_segment_inert.
  - change (JS.join "/" (seg :: y :: l))
      with (seg +:+ "/" +:+ JS.join "/" (y :: l)).
    rewrite path_state_chars by by apply inert_segment_chars.
    string_app. simpl. rewrite end_segment_inert by done.
    rewrite IH by done. by rewrite <- List.app_assoc.
Qed.

(** A reference made of such segments is parsed into these segments. *)
Lemma path_inert (segments : list string) :
  segments ≠ [] →
  Forall (λ x, Plain.inert_segment x = true) segments →
  URL.path ("https://hostname/" +:+ JS.join "/" segments) = Some segments.
Proof.
  intros Hne Hall. rewrite path_of_reference.
  rewrite strip_trailing_inert, remove_tab_newline_inert
    by by rewrite ?strip_trailing_inert; apply inert_join.
  by rewrite path_state_join.
Qed.

(** What the base URL parser is given for a path of such segments. *)
Lemma path_on_base_serialize (seg : string) (segments : list string) :
  Forall (λ x, Plain.inert_segment x = true) (seg :: segments) →
  URL.path_on_base (URL.serialize_path (seg :: segments))
  = URL.relative_slash_state (JS.join "/" (seg :: segments)).
Proof.
  intros Hall. unfold URL.path_on_base.
  change (URL.serialize_path (seg :: segments))
    with (String "/" (seg +:+ URL.serialize_path segments)).
  rewrite <- join_serialize.
  change (URL.strip_leading (String "/" ?s)) with (String "/" s).
  rewrite strip_trailing_cons by done.
  rewrite strip_trailing_inert by by apply inert_join.
  change (URL.remove_tab_newline (String "/" ?s))
    with (String "/" (URL.remove_tab_newline s)).
  rewrite remove_tab_newline_inert by by apply inert_join.
  done.
Qed.

(** Parsed once more, a path of such segments that does not start with an
    empty one is what it was: its pathname does not start with [//]. *)
Lemma path_on_base_inert (seg : string) (segments : list string) :
  seg ≠ "" →
  Forall (λ x, Plain.inert_segment x = true) (seg :: segments) →
  URL.path_on_base (URL.serialize_path (seg :: segments))
  = Some (seg :: segments).
Proof.
  intros Hseg Hall. rewrite path_on_base_serialize by done.
  pose proof (Forall_inv Hall) as Hfirst. simpl in Hfirst.
  apply inert_segment_chars in Hfirst.
  destruct seg as [|c seg]; [done |].
  rewrite join_serialize. string_app. unfold URL.relative_slash_state.
  simpl in Hfirst. apply andb_prop in Hfirst as [Hc _].
  apply plain_char_step in Hc as (-> & _ & _).
  rewrite <- str_app_cons, <- join_serialize.
  by rewrite path_state_join.
Qed.

Lemma matched_pathname_serialize (input : string) :
  matched_pathname input = URL.serialize_path <$> matched_path input.
Proof.
  unfold matched_pathname, matched_path, URL.pathname.
  destruct (URL.path input) as [first|] eqn:Hfirst; [|done].
  cbn [fmap option_fmap option_map mbind option_bind].
  by rewrite canonicalize_serialize by by eapply path_not_nil.
Qed.

Lemma matched_path_slash_free (input : string) (path : list string) :
  matched_path input = Some path →
  Forall (λ x, Grammar.slash_free x = true) path.
Proof.
  unfold matched_path. intros H.
  destruct (URL.path input); [|done]. by eapply path_on_base_slash_free.
Qed.

(** The pattern is tried on the segments of a reference made of such
    segments, the first of them not empty. *)
Lemma matched_path_inert (seg : string) (segments : list string) :
  seg ≠ "" →
  Forall (λ x, Plain.inert_segment x = true) (seg :: segments) →
  matched_path ("https://hostname/" +:+ JS.join "/" (seg :: segments))
  = Some (seg :: segments).
Proof.
  intros Hseg Hall. unfold matched_path.
  rewrite path_inert by done. cbn [mbind option_bind].
  by apply path_on_base_inert.
Qed.

End facts.

End URLFacts.

(** ** What [parse] and the getters compute *)

Module ParseFacts.
Import Aux StringFacts MatchFacts URLFacts.
Import LiteralDocumentReference.

Section facts.
Context {platform : URL.Platform}.

Lemma captured_nonempty (path : list string) (project database : string)
  (segments : list string) :
  captured path = Some (project, database, segments) →
  path = "projects" :: project :: "databases" :: database :: "documents"
         :: segments
  ∧ project ≠ "" ∧ database ≠ "" ∧ all_nonempty segments = true.
Proof.
  destruct path as [|s1 [|p [|s3 [|d [|s5 segs]]]]]; try done.
  unfold captured. case_match eqn:E; [|done]. intros [= <- <- <-].
  repeat (apply andb_prop in E as [E ?]).
  repeat match goal with
         | H : String.eqb _ _ = true |- _ => apply String.eqb_eq in H
         | H : negb (String.eqb _ _) = true |- _ =>
             apply negb_true_iff, String.eqb_neq in H
         end.
  by subst.
Qed.

Lemma captured_intro (project database : string) (segments : list string) :
  project ≠ "" → database ≠ "" → all_nonempty segments = true →
  captured ("projects" :: project :: "databases" :: database :: "documents"
            :: segments)
  = Some (project, database, segments).
Proof.
  intros Hp Hd Hs. unfold captured.
  apply String.eqb_neq in Hp, Hd. by rewrite Hp, Hd, Hs.
Qed.

(** [exec] tries the pattern on the path of the canonical pathname. *)
Lemma exec_spec (input : string) :
  URLPattern.exec pattern input
  = path ← matched_path input;
    c ← captured path;
    Some {| URLPattern.pathname :=
              {| URLPattern.input := URL.serialize_path path;
                 URLPattern.groups := groups_of c |} |}.
Proof.
  unfold URLPattern.exec, URL.pathname, matched_path.
  destruct (URL.path input) as [first|] eqn:Hfirst; [|done].
  cbn [fmap option_fmap option_map mbind option_bind].
  rewrite canonicalize_serialize by by eapply path_not_nil.
  destruct (URL.path_on_base _) as [path|] eqn:Hpath; [|done].
  cbn [fmap option_fmap option_map mbind option_bind].
  rewrite exec_serialize by by eapply path_on_base_slash_free.
  by destruct (captured path).
Qed.

Lemma groups_lookup (project database : string) (segments : list string) :
  groups_of (project, database, segments) !! "project_id" = Some project
  ∧ groups_of (project, database, segments) !! "database_id" = Some database
  ∧ groups_of (project, database, segments) !! "document_path"
    = match segments with
      | [] => None
      | _ => Some (JS.join "/" segments)
      end.
Proof.
  unfold groups_of.
  destruct segments as [|seg segments]; simpl; by simplify_map_eq.
Qed.

Lemma join_nonempty (seg : string) (segments : list string) :
  seg ≠ "" → JS.join "/" (seg :: segments) ≠ "".
Proof.
  intros Hseg. rewrite join_serialize.
  destruct seg; [done |]. by string_app.
Qed.

Lemma unless_falsy_Some (s : string) (e : Error) (this : t) :
  s ≠ "" → unless_falsy (Some s) e this = (Return s, this).
Proof. by destruct s. Qed.

(** [parse] returns the captures of the pattern on the parsed URL when the
    document path is there, throws otherwise, and leaves the receiver as
    it was. *)
Lemma parse_spec (this : t) :
  parse this = (outcome (referenceValue this), this).
Proof.
  unfold parse, outcome, url_of, mbind, method_bind, bind,
    this_referenceValue.
  rewrite exec_spec.
  destruct (matched_path _) as [path|]; [|done]. simpl.
  destruct (captured path) as [[[project database] segments]|] eqn:Hc;
    [|done]. simpl.
  apply captured_nonempty in Hc as (_ & Hp & Hd & Hs).
  destruct (groups_lookup project database segments) as (-> & -> & ->).
  rewrite !unless_falsy_Some by done.
  destruct segments as [|seg segments]; [done |].
  rewrite unless_falsy_Some; [done |].
  apply join_nonempty. simpl in Hs. apply andb_prop in Hs as [Hs _].
  by apply negb_true_iff, String.eqb_neq in Hs.
Qed.

End facts.

End ParseFacts.

(** ** Splitting and joining *)

Module SplitFacts.
Import StringFacts.

Lemma split_not_nil (s : string) : JS.split "/" s ≠ [].
Proof.
  destruct s as [|c s]; simpl; [done |].
  destruct (Ascii.eqb c "/"); [done |]. by destruct (JS.split "/" s).
Qed.

Lemma join_cons (x y : string) (l : list string) :
  JS.join "/" (x :: y :: l) = x +:+ "/" +:+ JS.join "/" (y :: l).
Proof. reflexivity. Qed.

(** Joining what [split] returns gives the string back. *)
Lemma join_split (s : string) : JS.join "/" (JS.split "/" s) = s.
Proof.
  induction s as [|c s IH]; [done |]. simpl.
  pose proof (split_not_nil s) as Hne.
  destruct (JS.split "/" s) as [|seg segs]; [done |].
  destruct (Ascii.eqb c "/") eqn:Hc.
  - apply Ascii.eqb_eq in Hc as ->. rewrite join_cons, IH. by string_app.
  - destruct segs as [|y segs].
    + simpl in *. by rewrite IH.
    + rewrite join_cons in *. rewrite str_app_cons. by rewrite IH.
Qed.

Lemma split_slash_free (s : string) :
  Forall (λ x, Grammar.slash_free x = true) (JS.split "/" s).
Proof.
  induction s as [|c s IH]; simpl; [by repeat constructor |].
  destruct (Ascii.eqb c "/") eqn:Hc; [by constructor |].
  destruct (JS.split "/" s) as [|seg segs].
  - repeat constructor. simpl. by rewrite Hc.
  - apply Forall_cons in IH as [Hseg Hsegs].
    constructor; [|done]. simpl. by rewrite Hc.
Qed.

Lemma split_segment (seg rest : string) :
  Grammar.slash_free seg = true →
  JS.split "/" (seg +:+ rest)
  = match JS.split "/" rest with
    | [] => [seg]
    | x :: l => (seg +:+ x) :: l
    end.
Proof.
  pose proof (split_not_nil rest) as Hne.
  induction seg as [|c seg IH]; string_app.
  - intros _. by destruct (JS.split "/" rest).
  - simpl. intros [Hc Hseg]%andb_prop. apply negb_true_iff in Hc.
    rewrite Hc, IH by done. by destruct (JS.split "/" rest).
Qed.

(** Splitting a join of segments gives the segments back. *)
Lemma split_join (segments : list string) :
  segments ≠ [] →
  Forall (λ x, Grammar.slash_free x = true) segments →
  JS.split "/" (JS.join "/" segments) = segments.
Proof.
  intros Hne Hall. induction Hall as [|seg l Hseg Hl IH]; [done |].
  destruct l as [|y l].
  - simpl. rewrite <- (str_app_nil_r seg) at 1.
    rewrite split_segment by done. simpl. by rewrite str_app_nil_r.
  - rewrite join_cons, split_segment by done. string_app.
    change (JS.split "/" (String "/" ?s)) with ("" :: JS.split "/" s).
    rewrite IH by done. by rewrite str_app_nil_r.
Qed.

Lemma join_snoc (l : list string) (x : string) :
  l ≠ [] → JS.join "/" (l ++ [x]) = JS.join "/" l +:+ "/" +:+ x.
Proof.
  induction l as [|y l IH]; [done |]. intros _.
  destruct l as [|z l]; [done |].
  change ((y :: z :: l) ++ [x]) with (y :: z :: (l ++ [x])).
  rewrite !join_cons. change (z :: l ++ [x]) with ((z :: l) ++ [x]).
  rewrite IH by done. by rewrite !str_app_assoc.
Qed.

(** [parts[parts.length - 1]] is the last element. *)
Lemma get_last {A} (l : list A) : JS.get l (Z.of_nat (length l) - 1) = last l.
Proof.
  unfold JS.get. destruct l as [|x l _] using rev_ind; [done |].
  rewrite List.length_app, last_snoc. simpl.
  case_match eqn:E; [apply Z.ltb_lt in E; lia |].
  replace (Z.to_nat (Z.of_nat (length l + 1) - 1)) with (length l) by lia.
  by rewrite list_lookup_middle.
Qed.

(** [parts.slice(0, parts.length - 1)] is all but the last element. *)
Lemma slice_removelast {A} (l : list A) :
  JS.slice l 0 (Z.of_nat (length l) - 1) = removelast l.
Proof.
  unfold JS.slice, JS.relative_index.
  destruct l as [|x l _] using rev_ind; [done |].
  rewrite removelast_last, List.length_app. simpl.
  case_match eqn:E; [apply Z.ltb_lt in E; lia |].
  replace (Z.to_nat (0 `min` Z.of_nat (length l + 1))) with 0%nat by lia.
  match goal with
  | |- take (Z.to_nat ?n) _ = _ =>
      replace (Z.to_nat n) with (length l) by lia
  end.
  rewrite drop_0.
  by rewrite take_app_length.
Qed.

Lemma slash_free_join_single (l : list string) :
  l ≠ [] → Forall (λ x, Grammar.slash_free x = true) l →
  Grammar.slash_free (JS.join "/" l) = true → ∃ x, l = [x].
Proof.
  intros Hne Hall Hfree. destruct l as [|x [|y l]]; [done | by eexists |].
  rewrite join_cons, !URLFacts.slash_free_app in Hfree.
  apply andb_prop in Hfree as [_ Hfree]. done.
Qed.

End SplitFacts.

(** ** The getters *)

Module AccessorFacts.
Import Aux StringFacts MatchFacts URLFacts ParseFacts SplitFacts.
Import LiteralDocumentReference.

Section facts.
Context {platform : URL.Platform}.

Lemma getter_spec {A} (f : parsed → A) (this : t) :
  (p ← parse; mret (f p)) this = (lift f (outcome (referenceValue this)), this).
Proof.
  unfold mbind, method_bind, bind. rewrite parse_spec.
  by destruct (outcome _).
Qed.

Lemma id_spec (this : t) :
  id this = (lift (value get_id) (outcome (referenceValue this)), this).
Proof.
  unfold id. rewrite (getter_spec (λ p, JS.get _ _)).
  destruct (outcome _); simpl; [|done]. by rewrite get_last.
Qed.

Lemma collectionPath_spec (this : t) :
  collectionPath this
  = (lift (λ p, JS.join "/" (removelast (JS.split "/" (parsed_document_path p))))
          (outcome (referenceValue this)), this).
Proof.
  unfold collectionPath. rewrite (getter_spec (λ p, JS.join _ _)).
  destruct (outcome _); simpl; [|done]. by rewrite slice_removelast.
Qed.

(** Every getter returns its view of what [parse] returns, throws what
    [parse] throws, and leaves the receiver as it was. *)
Lemma access_spec (a : accessor) (this : t) :
  access a this = (lift (value a) (outcome (referenceValue this)), this).
Proof.
  destruct a; simpl; try apply id_spec.
  all: unfold mbind, method_bind, bind.
  - unfold project_id. rewrite getter_spec. by destruct (outcome _).
  - unfold database_id. rewrite getter_spec. by destruct (outcome _).
  - unfold path. rewrite getter_spec. by destruct (outcome _).
  - rewrite collectionPath_spec. by destruct (outcome _).
Qed.

Lemma eval_project_id (reference : string) :
  eval project_id reference = lift parsed_project_id (outcome reference).
Proof. unfold eval, project_id. by rewrite getter_spec. Qed.

Lemma eval_database_id (reference : string) :
  eval database_id reference = lift parsed_database_id (outcome reference).
Proof. unfold eval, database_id. by rewrite getter_spec. Qed.

Lemma eval_path (reference : string) :
  eval path reference = lift parsed_document_path (outcome reference).
Proof. unfold eval, path. by rewrite getter_spec. Qed.

Lemma eval_id (reference : string) :
  eval id reference = lift (value get_id) (outcome reference).
Proof. unfold eval. by rewrite id_spec. Qed.

Lemma eval_collectionPath (reference : string) :
  eval collectionPath reference
  = lift (λ p, JS.join "/" (removelast (JS.split "/" (parsed_document_path p))))
         (outcome reference).
Proof. unfold eval. by rewrite collectionPath_spec. Qed.

Lemma eval_parse (reference : string) :
  eval parse reference = outcome reference.
Proof. unfold eval. by rewrite parse_spec. Qed.

Lemma eval_access (a : accessor) (reference : string) :
  eval (access a) reference = lift (value a) (outcome reference).
Proof. unfold eval. by rewrite access_spec. Qed.

(** *** The outcome of [parse] *)

Lemma outcome_Throw (reference : string) (e : Error) :
  outcome reference = Throw e → e = malformed.
Proof.
  unfold outcome. repeat case_match; congruence.
Qed.

Lemma outcome_Return (reference : string) (p : parsed) :
  outcome reference = Return p →
  ∃ project database segments,
    segments ≠ []
    ∧ matched_path (url_of reference)
      = Some ("projects" :: project :: "databases" :: database
              :: "documents" :: segments)
    ∧ Forall (λ x, Grammar.is_segment x = true)
             (project :: database :: segments)
    ∧ p = {| parsed_project_id := project;
             parsed_database_id := database;
             parsed_document_path := JS.join "/" segments |}.
Proof.
  unfold outcome.
  destruct (matched_path (url_of reference)) as [path|] eqn:Hpath; [|done].
  simpl. destruct (captured path) as [[[pr db] segs]|] eqn:Hc; [|done].
  destruct segs as [|seg segs]; [done |]. intros [= <-].
  apply captured_nonempty in Hc as (-> & Hp & Hd & Hs).
  exists pr, db, (seg :: segs). split_and!; try done.
  apply matched_path_slash_free in Hpath.
  apply Forall_cons in Hpath as [_ Hpath].
  apply Forall_cons in Hpath as [Hfp Hpath].
  apply Forall_cons in Hpath as [_ Hpath].
  apply Forall_cons in Hpath as [Hfd Hpath].
  apply Forall_cons in Hpath as [_ Hpath].
  unfold Grammar.is_segment.
  apply String.eqb_neq in Hp, Hd.
  constructor; [by rewrite Hp, Hfp |]. constructor; [by rewrite Hd, Hfd |].
  unfold all_nonempty in Hs. rewrite forallb_forall in Hs.
  rewrite Forall_forall in Hpath. apply Forall_forall. intros x Hx.
  rewrite Hpath by done. rewrite Hs; [done |]. by apply list_elem_of_In.
Qed.

Lemma plain_segment_facts (s : string) :
  Plain.segment s = true →
  s ≠ "" ∧ Grammar.slash_free s = true.
Proof.
  intros H.
  pose proof (inert_segment_chars s (segment_inert s H)) as Hchars.
  unfold Plain.segment in H. apply andb_prop in H as [H _].
  apply negb_true_iff, String.eqb_neq in H. split; [done |].
  clear H. induction s as [|c s IH]; [done |]. simpl in *.
  apply andb_prop in Hchars as [Hc Hs]. rewrite IH by done.
  apply plain_char_step in Hc as (Hc & _ & _).
  unfold URL.is_slash in Hc. apply orb_false_elim in Hc as [-> _]. done.
Qed.

Lemma plain_all_nonempty (segments : list string) :
  Forall (λ x, Plain.segment x = true) segments →
  all_nonempty segments = true.
Proof.
  induction 1 as [|x l Hx Hl IH]; [done |]. simpl.
  apply plain_segment_facts in Hx as [Hx _].
  apply String.eqb_neq in Hx. by rewrite Hx.
Qed.

Lemma reference_of_join (project database : string) (segments : list string) :
  segments ≠ [] →
  reference_of project database segments
  = JS.join "/" ("projects" :: project :: "databases" :: database
                 :: "documents" :: segments).
Proof.
  intros Hne. destruct segments as [|seg segments]; [done |].
  unfold reference_of. rewrite !join_cons. by string_app.
Qed.

(** [parse] on a reference of plain segments returns these segments. *)
Lemma outcome_plain (project database : string) (segments : list string) :
  segments ≠ [] →
  Forall (λ x, Plain.segment x = true) (project :: database :: segments) →
  outcome (reference_of project database segments)
  = Return {| parsed_project_id := project;
              parsed_database_id := database;
              parsed_document_path := JS.join "/" segments |}.
Proof.
  intros Hne Hall.
  apply Forall_cons in Hall as [Hp Hall].
  apply Forall_cons in Hall as [Hd Hs].
  unfold outcome, url_of. rewrite reference_of_join by done.
  rewrite matched_path_inert;
    [| done | by apply segments_inert; repeat constructor].
  cbn [mbind option_bind]. rewrite captured_intro.
  - by destruct segments.
  - by apply plain_segment_facts in Hp as [? _].
  - by apply plain_segment_facts in Hd as [? _].
  - by apply plain_all_nonempty.
Qed.

Lemma plain_slash_free (segments : list string) :
  Forall (λ x, Plain.segment x = true) segments →
  Forall (λ x, Grammar.slash_free x = true) segments.
Proof.
  intros H. eapply Forall_impl; [exact H |].
  intros x Hx. by apply plain_segment_facts in Hx as [_ ?].
Qed.

(** A sequence of accesses gives the outcome of each access on the
    reference as it was, which it still is afterwards. *)
Lemma access_all_spec (calls : list LiteralDocumentReference.accessor) (this : LiteralDocumentReference.t) :
  LiteralDocumentReference.access_all calls this
  = ((λ a, lift (value a) (outcome (LiteralDocumentReference.referenceValue this))) <$> calls,
     this).
Proof.
  induction calls as [|a calls IH]; simpl; [done |].
  by rewrite access_spec, IH.
Qed.

End facts.

End AccessorFacts.

(** ** The grammar on the pathname *)

Module GrammarFacts.
Import Aux StringFacts MatchFacts URLFacts ParseFacts SplitFacts AccessorFacts.

Section facts.
Context {platform : URL.Platform}.

Lemma segment_boundary_inj (a b r1 r2 : string) :
  Grammar.slash_free a = true → Grammar.slash_free b = true →
  boundary r1 → boundary r2 →
  a +:+ r1 = b +:+ r2 → a = b ∧ r1 = r2.
Proof.
  revert b. induction a as [|c a IH]; intros b Ha Hb H1 H2; string_app.
  - destruct b as [|d b]; string_app; [done |].
    intros ->. simpl in H1, Hb. subst d. done.
  - destruct b as [|d b]; string_app.
    + intros <-. simpl in H2, Ha. subst c. done.
    + intros [= -> H]. simpl in Ha, Hb.
      apply andb_prop in Ha as [_ Ha]. apply andb_prop in Hb as [_ Hb].
      destruct (IH b Ha Hb H1 H2 H) as [-> ->]. done.
Qed.

(** Two paths with the same serialization are the same path. *)
Lemma serialize_inj (l1 l2 : list string) :
  Forall (λ x, Grammar.slash_free x = true) l1 →
  Forall (λ x, Grammar.slash_free x = true) l2 →
  URL.serialize_path l1 = URL.serialize_path l2 → l1 = l2.
Proof.
  intros H1. revert l2.
  induction H1 as [|a l1 Ha Hl1 IH]; intros l2 H2 Heq.
  - by destruct l2.
  - destruct H2 as [|b l2 Hb Hl2]; [done |].
    simpl in Heq. string_app in Heq. injection Heq as Heq.
    apply segment_boundary_inj in Heq as [-> Heq];
      auto using boundary_serialize.
    f_equal. by apply IH.
Qed.

Lemma serialize_shape (project database : string) (segments : list string) :
  URL.serialize_path ("projects" :: project :: "databases" :: database
                      :: "documents" :: segments)
  = "/" +:+ "projects/" +:+ project +:+ "/databases/" +:+ database
    +:+ "/documents"
    +:+ match segments with
        | [] => ""
        | _ => "/" +:+ JS.join "/" segments
        end.
Proof.
  destruct segments as [|seg segments].
  - simpl. by string_app.
  - rewrite join_serialize. simpl. by string_app.
Qed.

Lemma is_segment_facts (s : string) :
  Grammar.is_segment s = true ↔ s ≠ "" ∧ Grammar.slash_free s = true.
Proof.
  unfold Grammar.is_segment. rewrite andb_true_iff, negb_true_iff.
  by rewrite String.eqb_neq.
Qed.

Lemma is_segment_all (segments : list string) :
  Forall (λ x, Grammar.is_segment x = true) segments →
  all_nonempty segments = true
  ∧ Forall (λ x, Grammar.slash_free x = true) segments.
Proof.
  induction 1 as [|x l Hx Hl [IH1 IH2]]; [done |].
  apply is_segment_facts in Hx as [Hx Hf]. simpl.
  apply String.eqb_neq in Hx. rewrite Hx, IH1. split; [done | by constructor].
Qed.

(** The compiled pattern accepts a parsed path exactly when its
    serialization matches the grammar. *)
Lemma captured_matches (path : list string) (project database : string)
  (segments : list string) :
  Forall (λ x, Grammar.slash_free x = true) path →
  captured path = Some (project, database, segments)
  ↔ Grammar.matches "/" (URL.serialize_path path) project database segments.
Proof.
  intros Hpath. split.
  - intros Hc. apply captured_nonempty in Hc as (-> & Hp & Hd & Hs).
    apply Forall_cons in Hpath as [_ Hpath].
    apply Forall_cons in Hpath as [Hfp Hpath].
    apply Forall_cons in Hpath as [_ Hpath].
    apply Forall_cons in Hpath as [Hfd Hpath].
    apply Forall_cons in Hpath as [_ Hpath].
    unfold Grammar.matches. split_and!.
    + by apply is_segment_facts.
    + by apply is_segment_facts.
    + unfold all_nonempty in Hs. rewrite forallb_forall in Hs.
      rewrite Forall_forall in Hpath. apply Forall_forall. intros x Hx.
      apply is_segment_facts. split; [|by apply Hpath].
      apply String.eqb_neq, negb_true_iff, Hs. by apply list_elem_of_In.
    + apply serialize_shape.
  - intros (Hp & Hd & Hs & Htext).
    apply is_segment_facts in Hp as [Hp Hfp].
    apply is_segment_facts in Hd as [Hd Hfd].
    apply is_segment_all in Hs as [Hs Hfs].
    rewrite <- serialize_shape in Htext.
    apply serialize_inj in Htext; [| done | by repeat constructor].
    subst path. by apply captured_intro.
Qed.

End facts.

End GrammarFacts.

(** ** Field values *)

Module FieldValueFacts.
Import TS FirestoreFieldValue.

Lemma has_union_inv (declared : type) (members : list type) (v : TS.value) :
  has declared (union_type members) v →
  ∃ member, member ∈ members ∧ has declared member v.
Proof. inversion 1; subst. by eexists. Qed.

Lemma has_object_inv (declared : type) (properties : list (string * type))
  (v : TS.value) :
  has declared (object_type properties) v →
  ∃ fields,
    v = object fields
    ∧ Forall (λ kt, ∃ x, fields !! kt.1 = Some x ∧ has declared kt.2 x)
             properties.
Proof. inversion 1; subst. by eexists. Qed.

(** Every member declares one property. *)
Lemma members_variants :
  members = (λ variant, object_type [variant]) <$> variants.
Proof. reflexivity. Qed.

(** A value of the type is an object with the property of a variant, of the
    type of that variant. *)
Lemma value_iff (v : TS.value) :
  value v
  ↔ ∃ fields tag payload x,
      v = object fields ∧ (tag, payload) ∈ variants
      ∧ fields !! tag = Some x ∧ has t payload x.
Proof.
  unfold value. change (has t t v) with (has t (union_type members) v).
  split.
  - intros (member & Hin & Hm)%has_union_inv.
    rewrite members_variants in Hin.
    apply list_elem_of_fmap in Hin as ([tag payload] & -> & Hin).
    apply has_object_inv in Hm as (fields & -> & Hall).
    apply Forall_singleton in Hall as (x & Hx & Hpayload).
    by exists fields, tag, payload, x.
  - intros (fields & tag & payload & x & -> & Hin & Hx & Hpayload).
    apply (has_union _ _ (object_type [(tag, payload)])).
    + rewrite members_variants.
      by apply (list_elem_of_fmap_2 (λ variant, object_type [variant])).
    + constructor. apply Forall_singleton. by exists x.
Qed.

Lemma value_tags_of (v : TS.value) : value v → tags_of v ≠ [].
Proof.
  intros (fields & tag & payload & x & -> & Hin & Hx & _)%value_iff.
  assert (tag ∈ tags_of (object fields)) as Htag.
  { apply list_elem_of_filter. split; [by eexists |].
    by apply (list_elem_of_fmap_2 fst _ (tag, payload)). }
  intros Hnil. rewrite Hnil in Htag. by apply elem_of_nil in Htag.
Qed.

Lemma value_nest_maps (n : nat) (v : TS.value) :
  value v → value (nest_maps n v).
Proof.
  intros Hv. induction n as [|n IH]; [done |].
  apply value_iff.
  eexists _, "mapValue", _, _. split; [reflexivity |].
  split; [| split; [by apply lookup_singleton_eq |]].
  - unfold variants. simpl.
    do 8 apply list_elem_of_further. apply list_elem_of_here.
  - constructor. apply Forall_singleton.
    eexists. split; [by apply lookup_singleton_eq |].
    constructor. apply map_Forall_singleton. by constructor.
Qed.

Lemma value_nest_arrays (n : nat) (v : TS.value) :
  value v → value (nest_arrays n v).
Proof.
  intros Hv. induction n as [|n IH]; [done |].
  apply value_iff.
  eexists _, "arrayValue", _, _. split; [reflexivity |].
  split; [| split; [by apply lookup_singleton_eq |]].
  - unfold variants. simpl.
    do 9 apply list_elem_of_further. apply list_elem_of_here.
  - constructor. apply Forall_singleton.
    eexists. split; [by apply lookup_singleton_eq |].
    constructor. apply Forall_singleton. by constructor.
Qed.

Lemma depth_nest_maps (n : nat) (v : TS.value) :
  depth (nest_maps n v) = (3 * n + depth v)%nat.
Proof.
  induction n as [|n IH]; [done |].
  change (depth (nest_maps (S n) v))
    with (S (map_fold (λ _ x d, depth x `max` d) 0
               ({[ "mapValue" :=
                     object {[ "fields" :=
                                 object {[ "field" := nest_maps n v ]} ]} ]}
                : gmap string TS.value))).
  rewrite map_fold_singleton.
  change (depth (object ?m)) with (S (map_fold (λ _ x d, depth x `max` d) 0 m)).
  rewrite map_fold_singleton.
  change (depth (object ?m)) with (S (map_fold (λ _ x d, depth x `max` d) 0 m)).
  rewrite map_fold_singleton, IH. lia.
Qed.

Lemma depth_nest_arrays (n : nat) (v : TS.value) :
  depth (nest_arrays n v) = (3 * n + depth v)%nat.
Proof.
  induction n as [|n IH]; [done |].
  change (depth (nest_arrays (S n) v))
    with (S (map_fold (λ _ x d, depth x `max` d) 0
               ({[ "arrayValue" :=
                     object {[ "values" := array [nest_arrays n v] ]} ]}
                : gmap string TS.value))).
  rewrite map_fold_singleton.
  change (depth (object ?m)) with (S (map_fold (λ _ x d, depth x `max` d) 0 m)).
  rewrite map_fold_singleton.
  change (depth (array [?x])) with (S (depth x `max` 0)).
  rewrite IH. lia.
Qed.

End FieldValueFacts.

(** * The claims of the specification *)

Module LDR := LiteralDocumentReference.
Import Aux StringFacts MatchFacts URLFacts ParseFacts SplitFacts AccessorFacts
  GrammarFacts.

(** ** C1 *)

Section claim_C1.
Context {platform : URL.Platform}.

(** C1: the code breaks the claim. The segments [my-proj], [(default)],
    [cities] and [LA?v=1] are non-empty and have no [/] in them, yet [id]
    returns [LA] and [path] returns [cities/LA], the query being cut off
    by the URL parser; and a project [my proj] comes back
    percent-encoded. So the getters do not return the segments of every
    reference of the form [projects/P/databases/D/documents/C1/I1]. *)
Theorem C1_segments_are_url_parsed :
  Forall (λ x, Grammar.is_segment x = true)
         ["my-proj"; "(default)"; "cities"; "LA?v=1"; "my proj"; "LA"]
  ∧ LDR.eval LDR.id
      "projects/my-proj/databases/(default)/documents/cities/LA?v=1"
    = LDR.Return (Some "LA")
  ∧ LDR.eval LDR.path
      "projects/my-proj/databases/(default)/documents/cities/LA?v=1"
    = LDR.Return "cities/LA"
  ∧ LDR.eval LDR.project_id
      "projects/my proj/databases/(default)/documents/cities/LA"
    = LDR.Return "my%20proj"
  ∧ ¬ (∀ P D C1 I1,
         Grammar.is_segment P = true → Grammar.is_segment D = true →
         Grammar.is_segment C1 = true → Grammar.is_segment I1 = true →
         let reference :=
           "projects/" +:+ P +:+ "/databases/" +:+ D +:+ "/documents/"
           +:+ C1 +:+ "/" +:+ I1 in
         LDR.eval LDR.project_id reference = LDR.Return P
         ∧ LDR.eval LDR.database_id reference = LDR.Return D
         ∧ LDR.eval LDR.path reference = LDR.Return (C1 +:+ "/" +:+ I1)
         ∧ LDR.eval LDR.id reference = LDR.Return (Some I1)
         ∧ LDR.eval LDR.collectionPath reference = LDR.Return C1).
Proof.
  destruct platform as [caret authority].
  split; [by repeat constructor |].
  do 3 (split; [by destruct caret; vm_compute |]).
  intros H.
  destruct (H "my-proj" "(default)" "cities" "LA?v=1"
              eq_refl eq_refl eq_refl eq_refl) as (_ & _ & _ & Hid & _).
  destruct caret; vm_compute in Hid; discriminate Hid.
Qed.

End claim_C1.

(** ** C2 *)

Section claim_C2.
Context {platform : URL.Platform}.

(** C2: the code breaks the claim, in both directions. The string
    [./projects/p/databases/d/documents/c/i] does not match the grammar,
    and [id] returns [i]. The string
    [projects/../databases/d/documents/c/i] matches the grammar with the
    captures [..], [d] and [c/i], none of them empty, and [id] throws: the
    URL parser resolves the dot segments before the pattern is tried. *)
Theorem C2_grammar_and_throw_disagree :
  (¬ ∃ P D segments,
       Grammar.matches "" "./projects/p/databases/d/documents/c/i"
                       P D segments)
  ∧ LDR.eval LDR.id "./projects/p/databases/d/documents/c/i"
    = LDR.Return (Some "i")
  ∧ Grammar.matches "" "projects/../databases/d/documents/c/i"
                    ".." "d" ["c"; "i"]
  ∧ LDR.eval LDR.id "projects/../databases/d/documents/c/i"
    = LDR.Throw
        {| LDR.message := "Invalid document path. Path does not match pattern." |}
  ∧ ¬ (∀ reference,
         (∃ e, LDR.eval LDR.id reference = LDR.Throw e)
         ↔ ¬ ∃ P D segments,
               Grammar.matches "" reference P D segments ∧ segments ≠ []).
Proof.
  assert (Grammar.matches "" "projects/../databases/d/documents/c/i"
                          ".." "d" ["c"; "i"]) as Hmatch.
  { unfold Grammar.matches. split; [done |]. split; [done |].
    split; [by repeat constructor | done]. }
  assert (LDR.eval LDR.id "projects/../databases/d/documents/c/i"
          = LDR.Throw
              {| LDR.message :=
                   "Invalid document path. Path does not match pattern." |})
    as Hthrow by (by destruct platform as [[] ?]; vm_compute).
  split; [| split; [| split; [exact Hmatch | split; [exact Hthrow |]]]].
  - intros (P & D & segments & _ & _ & _ & H).
    string_app in H. discriminate H.
  - by destruct platform as [[] ?]; vm_compute.
  - intros H.
    destruct (H "projects/../databases/d/documents/c/i") as [H1 _].
    apply H1; [by eexists |]. by exists "..", "d", ["c"; "i"].
Qed.

End claim_C2.

(** ** C3 *)

Section claim_C3.
Context {platform : URL.Platform}.

(** C3: the code breaks the claim. In
    [projects/p1/databases/(default)/documents/users/u 1/posts/p2#top]
    the document path is a chain of collection/id pairs, its final segment
    is [p2#top] and the segments before it join to [users/u 1/posts]; yet
    [id] returns [p2] and [collectionPath] returns [users/u%201/posts]. *)
Theorem C3_subcollection_is_url_parsed :
  Forall (λ x, Grammar.is_segment x = true)
         ["p1"; "(default)"; "users"; "u 1"; "posts"; "p2#top"]
  ∧ LDR.eval LDR.id
      "projects/p1/databases/(default)/documents/users/u 1/posts/p2#top"
    = LDR.Return (Some "p2")
  ∧ LDR.eval LDR.collectionPath
      "projects/p1/databases/(default)/documents/users/u 1/posts/p2#top"
    = LDR.Return "users/u%201/posts"
  ∧ ¬ (∀ P D segments,
         segments ≠ [] →
         Forall (λ x, Grammar.is_segment x = true) (P :: D :: segments) →
         let reference :=
           "projects/" +:+ P +:+ "/databases/" +:+ D +:+ "/documents/"
           +:+ JS.join "/" segments in
         LDR.eval LDR.id reference = LDR.Return (last segments)
         ∧ LDR.eval LDR.collectionPath reference
           = LDR.Return (JS.join "/" (removelast segments))).
Proof.
  destruct platform as [caret authority].
  split; [by repeat constructor |].
  do 2 (split; [by destruct caret; vm_compute |]).
  intros H.
  destruct (H "p1" "(default)" ["users"; "u 1"; "posts"; "p2#top"])
    as [Hid _]; [done | by repeat constructor |].
  destruct caret; vm_compute in Hid; discriminate Hid.
Qed.

End claim_C3.

(** ** C4 *)

Section claim_C4.
Context {platform : URL.Platform}.

(** C4: the code breaks the claim. From
    [x/../projects/p/databases/d/documents/c/i?v=1#top] [parse] captures
    [p], [d] and [c/i]; the [x/../] in front and the [?v=1#top] behind are
    in none of the captures, and the string is accepted although it
    neither starts with [projects/] nor ends with the document path. *)
Theorem C4_captures_do_not_cover_input :
  LDR.eval LDR.parse "x/../projects/p/databases/d/documents/c/i?v=1#top"
  = LDR.Return {| LDR.parsed_project_id := "p";
                  LDR.parsed_database_id := "d";
                  LDR.parsed_document_path := "c/i" |}
  ∧ "x/../projects/p/databases/d/documents/c/i?v=1#top"
    ≠ "projects/" +:+ "p" +:+ "/databases/" +:+ "d"
      +:+ "/documents/" +:+ "c/i"
  ∧ ¬ (∀ reference p,
         LDR.eval LDR.parse reference = LDR.Return p →
         reference
         = "projects/" +:+ LDR.parsed_project_id p
           +:+ "/databases/" +:+ LDR.parsed_database_id p
           +:+ "/documents/" +:+ LDR.parsed_document_path p).
Proof.
  assert (LDR.eval LDR.parse
            "x/../projects/p/databases/d/documents/c/i?v=1#top"
          = LDR.Return {| LDR.parsed_project_id := "p";
                          LDR.parsed_database_id := "d";
                          LDR.parsed_document_path := "c/i" |}) as Hparse
    by (by destruct platform as [[] ?]; vm_compute).
  split; [exact Hparse |]. split; [done |].
  intros H. specialize (H _ _ Hparse). discriminate H.
Qed.

End claim_C4.

(** ** C5 *)

Section claim_C5.
Context {platform : URL.Platform}.

(** C5: when a reference parses and its document path is a single segment,
    [id] returns that segment; and a reference of plain segments parses
    whatever the number of segments of its document path, odd or even. *)
Theorem C5_single_segment_id :
  (∀ reference document_path,
     LDR.eval LDR.path reference = LDR.Return document_path →
     Grammar.slash_free document_path = true →
     LDR.eval LDR.id reference = LDR.Return (Some document_path))
  ∧ (∀ P D segments,
       segments ≠ [] →
       Forall (λ x, Plain.segment x = true) (P :: D :: segments) →
       LDR.eval LDR.path
         ("projects/" +:+ P +:+ "/databases/" +:+ D +:+ "/documents/"
          +:+ JS.join "/" segments)
       = LDR.Return (JS.join "/" segments)).
Proof.
  split.
  - intros reference doc Hpath Hfree.
    rewrite eval_path in Hpath. rewrite eval_id.
    destruct (outcome reference) as [p|] eqn:Hp; [|done].
    simpl in *. injection Hpath as ->.
    rewrite <- (str_app_nil_r doc) at 1.
    rewrite split_segment by done. simpl. by rewrite str_app_nil_r.
  - intros P D segments Hne Hall.
    rewrite eval_path.
    change (outcome _) with (outcome (reference_of P D segments)).
    by rewrite (outcome_plain P D segments Hne Hall).
Qed.

End claim_C5.

Section example_C5.
#[local] Existing Instance example_platform.

(** A document path of one segment: [cities]. *)
Lemma C5_single_segment_example :
  LDR.eval LDR.path "projects/p/databases/d/documents/cities"
  = LDR.Return "cities"
  ∧ Grammar.slash_free "cities" = true
  ∧ LDR.eval LDR.id "projects/p/databases/d/documents/cities"
    = LDR.Return (Some "cities").
Proof.
  split; [vm_compute; reflexivity |]. split; [reflexivity |].
  apply (proj1 C5_single_segment_id
           "projects/p/databases/d/documents/cities" "cities");
    vm_compute; reflexivity.
Defined.

End example_C5.

(** ** C6 *)

(** C6 as stated fails: the object with the two properties [stringValue]
    and [integerValue] is assignable to the first member of the union,
    which asks for [stringValue] and says nothing of other properties; it
    is a field value that carries two of the ten tags. *)
Lemma C6_two_tags_in_one_value :
  FirestoreFieldValue.value
    (TS.object {[ "stringValue" := TS.text "a";
                  "integerValue" := TS.number 1 ]})
  ∧ FirestoreFieldValue.tags_of
      (TS.object {[ "stringValue" := TS.text "a";
                    "integerValue" := TS.number 1 ]})
    = ["stringValue"; "integerValue"]
  ∧ ¬ (∀ v, FirestoreFieldValue.value v →
            ∃ tag, FirestoreFieldValue.tags_of v = [tag]).
Proof.
  assert (FirestoreFieldValue.value
            (TS.object {[ "stringValue" := TS.text "a";
                          "integerValue" := TS.number 1 ]})) as Hvalue.
  { apply FieldValueFacts.value_iff.
    eexists _, "stringValue", _, _. split; [reflexivity |].
    split; [apply list_elem_of_here |].
    split; [by apply lookup_insert_eq | constructor]. }
  split; [exact Hvalue |]. split; [by vm_compute |].
  intros H. destruct (H _ Hvalue) as [tag Htag]. vm_compute in Htag.
  discriminate Htag.
Qed.

(** C6, amended: the union has ten members; each declares exactly one
    property, its tag, with the type of its payload, and the ten tags are
    distinct. A value is a field value exactly when it is an object that
    has the property of one of the ten variants, with a value of the type
    of that variant: it carries at least one of the ten tags, and nothing
    without one of them is a field value. [mapValue] and [arrayValue] are
    the only variants whose type refers to the type of field values, and
    both nest to any depth. *)
Theorem C6_field_value_union :
  FirestoreFieldValue.members
  = (λ variant, TS.object_type [variant]) <$> FirestoreFieldValue.variants
  ∧ FirestoreFieldValue.variants
    = [("stringValue", TS.string_type);
       ("integerValue", TS.number_type);
       ("doubleValue", TS.number_type);
       ("booleanValue", TS.boolean_type);
       ("nullValue", TS.null_type);
       ("timestampValue", TS.string_type);
       ("geoPointValue",
        TS.object_type
          [("latitude", TS.number_type); ("longitude", TS.number_type)]);
       ("referenceValue", TS.string_type);
       ("mapValue", TS.object_type [("fields", TS.record_type TS.alias)]);
       ("arrayValue", TS.object_type [("values", TS.array_type TS.alias)])]
  ∧ NoDup FirestoreFieldValue.tags
  ∧ (∀ v, FirestoreFieldValue.value v
          ↔ ∃ fields tag payload x,
              v = TS.object fields
              ∧ (tag, payload) ∈ FirestoreFieldValue.variants
              ∧ fields !! tag = Some x
              ∧ TS.has FirestoreFieldValue.t payload x)
  ∧ (∀ v, FirestoreFieldValue.value v → FirestoreFieldValue.tags_of v ≠ [])
  ∧ FirestoreFieldValue.recursive_tags = ["mapValue"; "arrayValue"]
  ∧ (∀ n v,
       FirestoreFieldValue.value v →
       FirestoreFieldValue.value (FirestoreFieldValue.nest_maps n v)
       ∧ FirestoreFieldValue.value (FirestoreFieldValue.nest_arrays n v)
       ∧ TS.depth (FirestoreFieldValue.nest_maps n v)
         = (3 * n + TS.depth v)%nat
       ∧ TS.depth (FirestoreFieldValue.nest_arrays n v)
         = (3 * n + TS.depth v)%nat).
Proof.
  split; [reflexivity |]. split; [reflexivity |].
  split; [apply (bool_decide_unpack _); by vm_compute |].
  split; [apply FieldValueFacts.value_iff |].
  split; [apply FieldValueFacts.value_tags_of |].
  split; [reflexivity |].
  intros n v Hv.
  auto using FieldValueFacts.value_nest_maps, FieldValueFacts.value_nest_arrays,
    FieldValueFacts.depth_nest_maps, FieldValueFacts.depth_nest_arrays.
Qed.

(** A string value, and five maps around it. *)
Lemma C6_example :
  FirestoreFieldValue.value (TS.object {[ "stringValue" := TS.text "a" ]})
  ∧ FirestoreFieldValue.value
      (FirestoreFieldValue.nest_maps 5
         (TS.object {[ "stringValue" := TS.text "a" ]}))
  ∧ TS.depth
      (FirestoreFieldValue.nest_maps 5
         (TS.object {[ "stringValue" := TS.text "a" ]}))
    = 16%nat.
Proof.
  assert (FirestoreFieldValue.value
            (TS.object {[ "stringValue" := TS.text "a" ]})) as Hvalue.
  { apply (proj1 (proj2 (proj2 (proj2 C6_field_value_union)))).
    eexists _, "stringValue", _, _. split; [reflexivity |].
    split; [apply list_elem_of_here |].
    split; [by apply lookup_singleton_eq | constructor]. }
  split; [exact Hvalue |].
  destruct (proj2 (proj2 (proj2 (proj2 (proj2 (proj2 C6_field_value_union)))))
              5%nat _ Hvalue) as (Hmaps & _ & Hdepth & _).
  split; [exact Hmaps |]. rewrite Hdepth. by vm_compute.
Defined.

(** ** C7 *)

Section claim_C7.
Context {platform : URL.Platform}.

(** C7: after any sequence of accesses, failing ones included, the
    receiver and its [referenceValue] are what they were, and the outcome
    of every access is the outcome on a fresh object holding the same
    string. *)
Theorem C7_accesses_leave_reference_unchanged (calls : list LDR.accessor)
  (this : LDR.t) :
  snd (LDR.access_all calls this) = this
  ∧ LDR.referenceValue (snd (LDR.access_all calls this))
    = LDR.referenceValue this
  ∧ fst (LDR.access_all calls this)
    = (λ a, LDR.eval (LDR.access a) (LDR.referenceValue this)) <$> calls
  ∧ snd (LDR.parse this) = this.
Proof.
  rewrite access_all_spec, parse_spec. simpl. split_and!; try done.
  apply list_fmap_ext. intros _ a _. by rewrite eval_access.
Qed.

End claim_C7.

(** ** C8 *)

Section claim_C8.
Context {platform : URL.Platform}.

(** C8: the outcome of a getter is the same after any accesses made before
    it as on the object as constructed, and two evaluations in a row give
    the same outcome twice. *)
Theorem C8_accessors_are_deterministic (before : list LDR.accessor)
  (a : LDR.accessor) (this : LDR.t) :
  LDR.access a (snd (LDR.access_all before this)) = LDR.access a this
  ∧ fst (LDR.access_all (before ++ [a]) this)
    = fst (LDR.access_all before this) ++ [fst (LDR.access a this)]
  ∧ fst (LDR.access_all [a; a] this)
    = [fst (LDR.access a this); fst (LDR.access a this)].
Proof.
  rewrite !access_all_spec, !access_spec. simpl.
  by rewrite fmap_app.
Qed.

End claim_C8.

(** ** C9 *)

Section claim_C9.
Context {platform : URL.Platform}.

(** C9: when parsing succeeds, [path] is [collectionPath], [/] and [id] if
    the document path has a [/] in it; otherwise [collectionPath] is empty
    and [id] is [path]. *)
Theorem C9_path_decomposition (reference document_path : string) :
  LDR.eval LDR.path reference = LDR.Return document_path →
  (Grammar.slash_free document_path = false →
   ∃ collection id,
     LDR.eval LDR.collectionPath reference = LDR.Return collection
     ∧ LDR.eval LDR.id reference = LDR.Return (Some id)
     ∧ document_path = collection +:+ "/" +:+ id)
  ∧ (Grammar.slash_free document_path = true →
     LDR.eval LDR.collectionPath reference = LDR.Return ""
     ∧ LDR.eval LDR.id reference = LDR.Return (Some document_path)).
Proof.
  intros Hpath. rewrite eval_path in Hpath.
  rewrite eval_id, eval_collectionPath.
  destruct (outcome reference) as [p|] eqn:Hp; [|done].
  simpl in *. injection Hpath as <-.
  set (doc := LDR.parsed_document_path p).
  pose proof (join_split doc) as Hjoin.
  pose proof (split_slash_free doc) as Hfree.
  pose proof (split_not_nil doc) as Hne.
  split.
  - intros Hslash.
    destruct (JS.split "/" doc) as [|x l _] using rev_ind; [done |].
    rewrite removelast_last, last_snoc.
    destruct l as [|y l].
    + simpl in Hjoin. apply Forall_cons in Hfree as [Hx _]. congruence.
    + exists (JS.join "/" (y :: l)), x. split_and!; try done.
      by rewrite <- Hjoin, join_snoc.
  - intros Hslash.
    rewrite <- (str_app_nil_r doc).
    rewrite split_segment by done. simpl. by rewrite str_app_nil_r.
Qed.

End claim_C9.

Section example_C9.
#[local] Existing Instance example_platform.

(** [users/u1/posts/p2] is [users/u1/posts], [/] and [p2]. *)
Lemma C9_example :
  LDR.eval LDR.path
    "projects/p1/databases/(default)/documents/users/u1/posts/p2"
  = LDR.Return "users/u1/posts/p2"
  ∧ ∃ collection id,
      LDR.eval LDR.collectionPath
        "projects/p1/databases/(default)/documents/users/u1/posts/p2"
      = LDR.Return collection
      ∧ LDR.eval LDR.id
          "projects/p1/databases/(default)/documents/users/u1/posts/p2"
        = LDR.Return (Some id)
      ∧ "users/u1/posts/p2" = collection +:+ "/" +:+ id.
Proof.
  split; [vm_compute; reflexivity |].
  apply (proj1 (C9_path_decomposition
                  "projects/p1/databases/(default)/documents/users/u1/posts/p2"
                  "users/u1/posts/p2" ltac:(vm_compute; reflexivity))).
  reflexivity.
Defined.

End example_C9.

(** ** C10 *)

Section claim_C10.
Context {platform : URL.Platform}.

(** C10: whatever [parse] or a getter throws, on whatever reference, is the
    one error with the message
    [Invalid document path. Path does not match pattern.]: two failures are
    equal, whichever branch of [parse] they come from. *)
Theorem C10_one_error_message (reference1 reference2 : string)
  (a1 a2 : LDR.accessor) (e1 e2 : LDR.Error) :
  LDR.eval (LDR.access a1) reference1 = LDR.Throw e1 →
  LDR.eval (LDR.access a2) reference2 = LDR.Throw e2 →
  LDR.message e1 = "Invalid document path. Path does not match pattern."
  ∧ e1 = e2
  ∧ LDR.eval LDR.parse reference1 = LDR.Throw e1.
Proof.
  rewrite !eval_access, eval_parse. intros H1 H2.
  destruct (outcome reference1) as [|e1'] eqn:Ho1; [done |].
  destruct (outcome reference2) as [|e2'] eqn:Ho2; [done |].
  simpl in *. injection H1 as <-. injection H2 as <-.
  apply outcome_Throw in Ho1 as ->. apply outcome_Throw in Ho2 as ->. done.
Qed.

End claim_C10.

Section example_C10.
#[local] Existing Instance example_platform.

(** A string that does not match at all and one that matches with no
    document path fail alike. *)
Lemma C10_mismatch_and_missing_capture :
  LDR.eval (LDR.access LDR.get_id) "not-a-valid-path"
  = LDR.Throw
      {| LDR.message := "Invalid document path. Path does not match pattern." |}
  ∧ LDR.eval (LDR.access LDR.get_path) "projects/p/databases/d/documents"
    = LDR.Throw
        {| LDR.message := "Invalid document path. Path does not match pattern." |}
  ∧ RegExp.exec (URLPattern.regexp LDR.pattern) "/not-a-valid-path" = None
  ∧ RegExp.exec (URLPattern.regexp LDR.pattern)
                "/projects/p/databases/d/documents"
    = Some (<[2 := "d"]> (<[1 := "p"]> ∅))
  ∧ LDR.message
      {| LDR.message := "Invalid document path. Path does not match pattern." |}
    = "Invalid document path. Path does not match pattern."
  ∧ {| LDR.message := "Invalid document path. Path does not match pattern." |}
    = {| LDR.message := "Invalid document path. Path does not match pattern." |}
  ∧ LDR.eval LDR.parse "not-a-valid-path"
    = LDR.Throw
        {| LDR.message := "Invalid document path. Path does not match pattern." |}.
Proof.
  do 4 (split; [vm_compute; reflexivity |]).
  apply (C10_one_error_message "not-a-valid-path"
           "projects/p/databases/d/documents" LDR.get_id LDR.get_path);
    vm_compute; reflexivity.
Defined.

End example_C10.

(** * Further properties of [LiteralDocumentReference] *)

(** ** What the URL parser does to a reference *)

Module NormalFacts.
Import Aux StringFacts MatchFacts URLFacts ParseFacts SplitFacts AccessorFacts
  GrammarFacts.

Section facts.
Context {platform : URL.Platform}.

(** Two references with the same URL path have the same getters. *)
Lemma same_path_same_access (r1 r2 : string) (a : LiteralDocumentReference.accessor) :
  URL.path ("https://hostname/" +:+ r1) = URL.path ("https://hostname/" +:+ r2) →
  LiteralDocumentReference.eval (LiteralDocumentReference.access a) r1
  = LiteralDocumentReference.eval (LiteralDocumentReference.access a) r2.
Proof.
  intros H. rewrite !eval_access.
  unfold outcome, matched_path, url_of. by rewrite H.
Qed.

Lemma chars_app (a b : string) :
  Plain.chars (a +:+ b) = Plain.chars a && Plain.chars b.
Proof.
  induction a as [|c a IH]; string_app; simpl; [done |].
  rewrite IH. by rewrite andb_assoc.
Qed.

(** What the path state puts into the buffer is plain. *)
Lemma percent_encode_plain (c : ascii) :
  URL.is_slash c = false → URL.starts_query_or_fragment c = false →
  Plain.chars (URL.utf8_percent_encode c) = true.
Proof.
  destruct platform as [[] ?];
    destruct c as [[] [] [] [] [] [] [] []]; vm_compute; intros; congruence.
Qed.

Lemma end_segment_all_inert (path : list string) (buffer : string)
  (slash : bool) :
  Forall (λ x, Plain.inert_segment x = true) path →
  Plain.chars buffer = true →
  Forall (λ x, Plain.inert_segment x = true)
         (URL.end_segment path buffer slash).
Proof.
  intros Hpath Hbuffer. unfold URL.end_segment, URL.shorten.
  destruct (URL.is_double_dot buffer) eqn:Hdd.
  - destruct slash; [by apply Forall_removelast |].
    apply Forall_app_2; [by apply Forall_removelast | by repeat constructor].
  - destruct (URL.is_single_dot buffer) eqn:Hd.
    + destruct slash; [done |].
      apply Forall_app_2; [done | by repeat constructor].
    + apply Forall_app_2; [done |]. repeat constructor.
      unfold Plain.inert_segment. by rewrite Hbuffer, Hd, Hdd.
Qed.

Lemma path_state_all_inert (input : string) (path : list string)
  (buffer : string) :
  Forall (λ x, Plain.inert_segment x = true) path →
  Plain.chars buffer = true →
  Forall (λ x, Plain.inert_segment x = true)
         (URL.path_state input path buffer).
Proof.
  revert path buffer.
  induction input as [|c input IH]; intros path buffer Hpath Hbuffer; simpl.
  - by apply end_segment_all_inert.
  - destruct (URL.is_slash c) eqn:Hc.
    + apply IH; [by apply end_segment_all_inert | done].
    + destruct (URL.starts_query_or_fragment c) eqn:Hq.
      * by apply end_segment_all_inert.
      * apply IH; [done |].
        rewrite chars_app, Hbuffer. by apply percent_encode_plain.
Qed.

(** Every segment of a parsed path is one that the URL parser would leave
    as it is. *)
Lemma path_all_inert (input : string) (path : list string) :
  URL.path input = Some path →
  Forall (λ x, Plain.inert_segment x = true) path.
Proof.
  unfold URL.path, URL.path_start_state. intros H.
  repeat case_match; simplify_eq; by apply path_state_all_inert.
Qed.

(** The same holds for the path that the pattern is tried on. *)
Lemma matched_path_all_inert (input : string) (path : list string) :
  matched_path input = Some path →
  Forall (λ x, Plain.inert_segment x = true) path.
Proof.
  unfold matched_path. destruct (URL.path input) as [first|]; [|done].
  cbn [mbind option_bind].
  unfold URL.path_on_base, URL.relative_slash_state, URL.scheme_relative,
    URL.path_start_state.
  intros H. repeat case_match; simplify_eq; by apply path_state_all_inert.
Qed.

(** What [parse] returns is made of plain segments. *)
Lemma outcome_Return_plain (reference : string)
  (p : LiteralDocumentReference.parsed) :
  outcome reference = LiteralDocumentReference.Return p →
  ∃ project database segments,
    segments ≠ []
    ∧ Forall (λ x, Plain.segment x = true) (project :: database :: segments)
    ∧ p = {| LiteralDocumentReference.parsed_project_id := project;
             LiteralDocumentReference.parsed_database_id := database;
             LiteralDocumentReference.parsed_document_path :=
               JS.join "/" segments |}.
Proof.
  intros Hp.
  apply outcome_Return in Hp as (P & D & segs & Hne & Hpath & Hseg & ->).
  exists P, D, segs. split_and!; try done.
  apply matched_path_all_inert in Hpath.
  apply Forall_cons in Hpath as [_ Hpath].
  apply Forall_cons in Hpath as [HP Hpath].
  apply Forall_cons in Hpath as [_ Hpath].
  apply Forall_cons in Hpath as [HD Hpath].
  apply Forall_cons in Hpath as [_ Hpath].
  assert (∀ x, Grammar.is_segment x = true → Plain.inert_segment x = true →
               Plain.segment x = true) as Hboth.
  { intros x Hx Hi. unfold Plain.segment. rewrite Hi.
    apply is_segment_facts in Hx as [Hx _].
    apply String.eqb_neq in Hx. by rewrite Hx. }
  apply Forall_cons in Hseg as [HP' Hseg].
  apply Forall_cons in Hseg as [HD' Hseg].
  constructor; [by apply Hboth |]. constructor; [by apply Hboth |].
  rewrite Forall_forall in Hseg, Hpath. apply Forall_forall.
  intros x Hx. apply Hboth; auto.
Qed.

(** *** Blanks, tabs and newlines *)

Lemma strip_trailing_blank (s : string) :
  all_blank s = true → URL.strip_trailing s = "".
Proof.
  induction s as [|c s IH]; simpl; [done |].
  intros [Hc Hs]%andb_prop. by rewrite IH, Hc.
Qed.

Lemma strip_trailing_app_blank (r blanks : string) :
  all_blank blanks = true →
  URL.strip_trailing (r +:+ blanks) = URL.strip_trailing r.
Proof.
  intros Hb. induction r as [|c r IH]; string_app.
  - by apply strip_trailing_blank.
  - simpl. by rewrite IH.
Qed.

Lemma strip_trailing_app (a b : string) :
  URL.strip_trailing b ≠ "" →
  URL.strip_trailing (a +:+ b) = a +:+ URL.strip_trailing b.
Proof.
  intros Hb. induction a as [|c a IH]; string_app; [done |].
  simpl. rewrite IH. destruct (URL.strip_trailing b); [done |].
  by destruct a; string_app.
Qed.

Lemma strip_trailing_no_blank (a b : string) :
  no_blank a = true →
  URL.strip_trailing (a +:+ b) = a +:+ URL.strip_trailing b.
Proof.
  induction a as [|c a IH]; string_app; [done |].
  simpl no_blank. intros [Hc Ha]%andb_prop. apply negb_true_iff in Hc.
  by rewrite strip_trailing_cons, IH.
Qed.

Lemma remove_tab_newline_app (a b : string) :
  URL.remove_tab_newline (a +:+ b)
  = URL.remove_tab_newline a +:+ URL.remove_tab_newline b.
Proof.
  induction a as [|c a IH]; string_app; [done |]. simpl.
  destruct (URL.is_ascii_tab_or_newline c); [done |]. by rewrite IH.
Qed.

Lemma tab_is_blank (c : ascii) :
  URL.is_c0_control_or_space c = false →
  URL.is_ascii_tab_or_newline c = false.
Proof.
  destruct c as [[] [] [] [] [] [] [] []]; vm_compute; congruence.
Qed.

Lemma remove_tab_newline_no_blank (a : string) :
  no_blank a = true → URL.remove_tab_newline a = a.
Proof.
  induction a as [|c a IH]; simpl; [done |].
  intros [Hc Ha]%andb_prop. apply negb_true_iff, tab_is_blank in Hc.
  by rewrite Hc, IH.
Qed.

Lemma remove_tab_newline_stripped (s : string) :
  URL.strip_trailing s ≠ "" →
  URL.remove_tab_newline (URL.strip_trailing s) ≠ "".
Proof.
  induction s as [|c s IH]; simpl; [done |].
  destruct (URL.strip_trailing s) as [|d r] eqn:Hs.
  - destruct (URL.is_c0_control_or_space c) eqn:Hc; [done |].
    intros _. simpl. by rewrite (tab_is_blank c Hc).
  - intros _. specialize (IH ltac:(done)).
    change (URL.remove_tab_newline (String c (String d r)))
      with (if URL.is_ascii_tab_or_newline c
            then URL.remove_tab_newline (String d r)
            else String c (URL.remove_tab_newline (String d r))).
    by destruct (URL.is_ascii_tab_or_newline c).
Qed.

(** Stripping the trailing blanks and removing tabs and newlines can be done
    in either order. *)
Lemma strip_trailing_remove (s : string) :
  URL.strip_trailing (URL.remove_tab_newline s)
  = URL.remove_tab_newline (URL.strip_trailing s).
Proof.
  induction s as [|c s IH]; [done |].
  change (URL.remove_tab_newline (String c s))
    with (if URL.is_ascii_tab_or_newline c
          then URL.remove_tab_newline s
          else String c (URL.remove_tab_newline s)).
  pose proof (remove_tab_newline_stripped s) as Hne.
  destruct (URL.is_ascii_tab_or_newline c) eqn:Ht.
  - rewrite IH. simpl.
    destruct (URL.strip_trailing s) as [|d r] eqn:Hs.
    + assert (URL.is_c0_control_or_space c = true) as ->; [|done].
      destruct (URL.is_c0_control_or_space c) eqn:Hc; [done |].
      by rewrite (tab_is_blank c Hc) in Ht.
    + change (URL.remove_tab_newline (String c (String d r)))
        with (if URL.is_ascii_tab_or_newline c
              then URL.remove_tab_newline (String d r)
              else String c (URL.remove_tab_newline (String d r))).
      by rewrite Ht.
  - simpl. rewrite IH.
    destruct (URL.strip_trailing s) as [|d r] eqn:Hs.
    + simpl. destruct (URL.is_c0_control_or_space c); [done |].
      simpl. by rewrite Ht.
    + specialize (Hne ltac:(done)).
      change (URL.remove_tab_newline (String c (String d r)))
        with (if URL.is_ascii_tab_or_newline c
              then URL.remove_tab_newline (String d r)
              else String c (URL.remove_tab_newline (String d r))).
      rewrite Ht. by destruct (URL.remove_tab_newline (String d r)).
Qed.

Lemma remove_tab_newline_idemp (s : string) :
  URL.remove_tab_newline (URL.remove_tab_newline s) = URL.remove_tab_newline s.
Proof.
  induction s as [|c s IH]; simpl; [done |].
  destruct (URL.is_ascii_tab_or_newline c) eqn:Ht; [done |].
  simpl. by rewrite Ht, IH.
Qed.

(** *** Queries, fragments and backslashes *)

(** The path state stops at the first [?] or [#]. *)
Lemma path_state_cut (a rest : string) (c : ascii) (path : list string)
  (buffer : string) :
  URL.starts_query_or_fragment c = true →
  URL.path_state (a +:+ String c rest) path buffer
  = URL.path_state a path buffer.
Proof.
  intros Hc. revert path buffer.
  induction a as [|d a IH]; intros path buffer; string_app; simpl.
  - rewrite Hc.
    assert (URL.is_slash c = false) as ->; [|done].
    revert Hc. destruct c as [[] [] [] [] [] [] [] []]; vm_compute; congruence.
  - destruct (URL.is_slash d); [apply IH |].
    destruct (URL.starts_query_or_fragment d); [done | apply IH].
Qed.

Lemma query_char_facts (c : ascii) :
  URL.starts_query_or_fragment c = true →
  URL.is_c0_control_or_space c = false
  ∧ URL.is_ascii_tab_or_newline c = false.
Proof.
  destruct c as [[] [] [] [] [] [] [] []]; vm_compute; split; congruence.
Qed.

Lemma strip_trailing_slashes (s : string) :
  URL.strip_trailing (slashes s) = slashes (URL.strip_trailing s).
Proof.
  induction s as [|c s IH]; [done |]. simpl. rewrite IH.
  destruct (URL.strip_trailing s) as [|d r]; simpl; [|done].
  destruct (Ascii.eqb c "\") eqn:Hc.
  - apply Ascii.eqb_eq in Hc as ->. done.
  - destruct (URL.is_c0_control_or_space c); [done |]. simpl. by rewrite Hc.
Qed.

Lemma remove_tab_newline_slashes (s : string) :
  URL.remove_tab_newline (slashes s) = slashes (URL.remove_tab_newline s).
Proof.
  induction s as [|c s IH]; [done |]. simpl. rewrite IH.
  destruct (Ascii.eqb c "\") eqn:Hc.
  - apply Ascii.eqb_eq in Hc as ->. done.
  - destruct (URL.is_ascii_tab_or_newline c); [done |]. simpl. by rewrite Hc.
Qed.

(** The path state reads [\] as it reads [/]. *)
Lemma path_state_slashes (s : string) (path : list string) (buffer : string) :
  URL.path_state (slashes s) path buffer = URL.path_state s path buffer.
Proof.
  revert path buffer. induction s as [|c s IH]; intros path buffer; [done |].
  simpl. destruct (Ascii.eqb c "\") eqn:Hc.
  - apply Ascii.eqb_eq in Hc as ->. simpl. apply IH.
  - by rewrite !IH.
Qed.

(** *** Segments added behind a reference *)


Lemma Forall_forallb {A} (f : A → bool) (l : list A) :
  forallb f l = true ↔ Forall (λ x, f x = true) l.
Proof.
  rewrite forallb_forall, Forall_forall.
  split; intros H x Hx; apply H; by apply list_elem_of_In.
Qed.


(** *** The pathname parsed once more *)

Lemma authority_state_chars (seg rest : string) :
  Plain.chars seg = true → boundary rest →
  URL.authority_state (seg +:+ rest) = (seg, rest).
Proof.
  intros Hseg Hrest. induction seg as [|c seg IH]; string_app.
  - destruct rest as [|d rest]; [done |]. simpl in Hrest. by subst d.
  - simpl in Hseg. apply andb_prop in Hseg as [Hc Hseg].
    apply plain_char_step in Hc as (Hs & Hq & _).
    simpl. by rewrite Hs, Hq, IH.
Qed.

Lemma path_start_state_serialize (segments : list string) :
  Forall (λ x, Plain.inert_segment x = true) segments →
  URL.path_start_state (URL.serialize_path segments)
  = behind_authority segments.
Proof.
  intros Hall. destruct segments as [|seg segments]; [done |].
  change (URL.serialize_path (seg :: segments))
    with (String "/" (seg +:+ URL.serialize_path segments)).
  rewrite <- join_serialize. unfold URL.path_start_state.
  change (URL.is_slash "/") with true. cbn iota.
  by rewrite path_state_join.
Qed.

(** What follows [//] in the pathname of a path of such segments. *)
Lemma scheme_relative_join (segments : list string) :
  segments ≠ [] →
  Forall (λ x, Plain.inert_segment x = true) segments →
  URL.scheme_relative (JS.join "/" segments)
  = match drop_empty segments with
    | [] => if URL.accepts_authority "" then Some [""] else None
    | authority :: rest =>
        if URL.accepts_authority authority
        then Some (behind_authority rest) else None
    end.
Proof.
  intros Hne Hall. induction Hall as [|seg l Hseg Hl IH]; [done |].
  destruct seg as [|c seg].
  - destruct l as [|y l]; [done |].
    change (JS.join "/" ("" :: y :: l)) with (String "/" (JS.join "/" (y :: l))).
    change (drop_empty ("" :: y :: l)) with (drop_empty (y :: l)).
    by rewrite <- IH.
  - change (drop_empty (String c seg :: l)) with (String c seg :: l).
    rewrite join_serialize. unfold URL.scheme_relative.
    pose proof (inert_segment_chars _ Hseg) as Hchars.
    assert (URL.is_slash c = false) as Hc.
    { simpl in Hchars. apply andb_prop in Hchars as [Hc _].
      by apply plain_char_step in Hc as (? & _ & _). }
    string_app. simpl URL.special_authority_ignore_slashes_state.
    rewrite Hc. rewrite <- str_app_cons.
    rewrite authority_state_chars by auto using boundary_serialize.
    by rewrite path_start_state_serialize.
Qed.

(** Parsing the pathname of a path of such segments once more. *)
Lemma path_on_base_rebase (path : list string) :
  path ≠ [] →
  Forall (λ x, Plain.inert_segment x = true) path →
  URL.path_on_base (URL.serialize_path path) = rebase path.
Proof.
  intros Hne Hall. destruct path as [|seg path]; [done |].
  destruct seg as [|c seg].
  - rewrite path_on_base_serialize by done.
    destruct path as [|y path]; [done |].
    change (JS.join "/" ("" :: y :: path))
      with (String "/" (JS.join "/" (y :: path))).
    unfold URL.relative_slash_state. change (URL.is_slash "/") with true.
    cbn iota. apply Forall_cons in Hall as [_ Hall].
    by rewrite scheme_relative_join.
  - by rewrite path_on_base_inert.
Qed.

(** The path that the pattern is tried on. *)
Lemma matched_path_rebase (input : string) :
  matched_path input = URL.path input ≫= rebase.
Proof.
  unfold matched_path. destruct (URL.path input) as [path|] eqn:Hpath; [|done].
  cbn [mbind option_bind].
  apply path_on_base_rebase; [by eapply path_not_nil |].
  by eapply path_all_inert.
Qed.



(** *** Text in front of a reference *)

Lemma chars_no_blank (s : string) : Plain.chars s = true → no_blank s = true.
Proof.
  induction s as [|c s IH]; simpl; [done |].
  intros [Hc Hs]%andb_prop. rewrite IH by done.
  assert ((Plain.char c || Ascii.eqb c "/") = true) as Hc'
    by by rewrite Hc.
  by apply inert_char_not_blank in Hc' as [-> _].
Qed.

Lemma no_blank_app (a b : string) :
  no_blank (a +:+ b) = no_blank a && no_blank b.
Proof.
  induction a as [|c a IH]; string_app; [done |].
  simpl. by rewrite IH, andb_assoc.
Qed.

Lemma path_state_prefix (prefix reference : string) :
  no_blank prefix = true →
  URL.path ("https://hostname/" +:+ prefix +:+ reference)
  = Some (URL.path_state
            (prefix +:+ URL.remove_tab_newline (URL.strip_trailing reference))
            [] "").
Proof.
  intros Hp. rewrite path_of_reference.
  by rewrite strip_trailing_no_blank, remove_tab_newline_app,
    remove_tab_newline_no_blank.
Qed.

End facts.

End NormalFacts.

Import NormalFacts.

(** ** X1: the compiled pattern *)

(** X1: the regular expression that the static [pattern] compiles to accepts
    a text, in full, exactly when the text is [/projects/], a segment,
    [/databases/], a segment, [/documents] and then nothing or [/] and
    segments joined by [/], every segment non-empty and without [/]; the
    groups 1 and 2 capture the two segments, and group 3 the joined segments
    when there are any. *)
Theorem X1_pattern_accepts_the_grammar (text : string) (c : RegExp.captures) :
  RegExp.exec (URLPattern.regexp LDR.pattern) text = Some c
  ↔ ∃ P D segments,
      Grammar.matches "/" text P D segments
      ∧ c = captures_of (P, D, segments).
Proof.
  assert (∀ path, Forall (λ x, Grammar.slash_free x = true) path →
            (captures_of <$> captured path = Some c
             ↔ ∃ P D segments,
                 Grammar.matches "/" (URL.serialize_path path) P D segments
                 ∧ c = captures_of (P, D, segments))) as Hpath.
  { intros path Hfree. split.
    - destruct (captured path) as [[[P D] segments]|] eqn:Hc; [|done].
      intros [= <-]. exists P, D, segments. split; [|done].
      by apply captured_matches.
    - intros (P & D & segments & Hm & ->).
      apply captured_matches in Hm; [|done]. by rewrite Hm. }
  destruct text as [|ch t].
  - split; [by vm_compute |].
    intros (P & D & segments & (_ & _ & _ & H) & _).
    string_app in H. discriminate H.
  - destruct (Ascii.eqb ch "/") eqn:Hch.
    + apply Ascii.eqb_eq in Hch as ->.
      assert (String "/" t = URL.serialize_path (JS.split "/" t)) as ->.
      { pose proof (split_not_nil t) as Hne. pose proof (join_split t) as Hj.
        destruct (JS.split "/" t) as [|seg l]; [done |].
        simpl URL.serialize_path. rewrite <- join_serialize, Hj.
        by string_app. }
      rewrite exec_serialize by apply split_slash_free.
      apply Hpath, split_slash_free.
    + split.
      * rewrite pattern_regexp. unfold RegExp.exec. simpl. by rewrite Hch.
      * intros (P & D & segments & (_ & _ & _ & H) & _).
        string_app in H. injection H as -> _. done.
Qed.

(** ** X2: the guards of [parse] *)

Section extra_X2.
Context {platform : URL.Platform}.

(** X2: whenever [exec] returns a result, its groups [project_id] and
    [database_id] are non-empty strings: of the four [throw]s of [parse],
    the second and the third are never reached. *)
Theorem X2_project_and_database_guards_never_fire (input : string)
  (result : URLPattern.result) :
  URLPattern.exec LDR.pattern input = Some result →
  JS.falsy (URLPattern.groups (URLPattern.pathname result) !! "project_id")
  = false
  ∧ JS.falsy (URLPattern.groups (URLPattern.pathname result) !! "database_id")
    = false.
Proof.
  rewrite exec_spec. intros H.
  destruct (matched_path input) as [path|]; [|done]. simpl in H.
  destruct (captured path) as [[[P D] segments]|] eqn:Hc; [|done].
  simpl in H. injection H as <-. simpl.
  apply captured_nonempty in Hc as (_ & HP & HD & _).
  destruct (groups_lookup P D segments) as (-> & -> & _).
  by destruct P, D.
Qed.

End extra_X2.

Section example_X2.
#[local] Existing Instance example_platform.

(** A database root: [exec] matches, the first two guards pass and the
    last one throws. *)
Lemma X2_database_root :
  ∃ result,
    URLPattern.exec LDR.pattern
      "https://hostname/projects/p/databases/d/documents" = Some result
    ∧ JS.falsy (URLPattern.groups (URLPattern.pathname result) !! "project_id")
      = false
    ∧ JS.falsy (URLPattern.groups (URLPattern.pathname result)
                  !! "database_id") = false
    ∧ JS.falsy (URLPattern.groups (URLPattern.pathname result)
                  !! "document_path") = true.
Proof.
  destruct (URLPattern.exec LDR.pattern
              "https://hostname/projects/p/databases/d/documents")
    as [result|] eqn:H; [| by vm_compute in H].
  exists result. split; [done |].
  destruct (X2_project_and_database_guards_never_fire _ _ H) as [H1 H2].
  split; [exact H1 |]. split; [exact H2 |].
  vm_compute in H. injection H as <-. reflexivity.
Defined.

End example_X2.

(** ** X3, X4: what the getters can return *)

Section extra_X3.
Context {platform : URL.Platform}.

(** X3: whatever [parse] returns, the project and the database are
    non-empty, and so is every segment of the document path between two [/];
    none of them has a [/] or [\], a [?] or [#], a blank, or any other
    character that the URL parser percent-encodes, and none is a dot
    segment. *)
Theorem X3_parsed_parts_are_plain (reference : string) (p : LDR.parsed) :
  LDR.eval LDR.parse reference = LDR.Return p →
  Plain.segment (LDR.parsed_project_id p) = true
  ∧ Plain.segment (LDR.parsed_database_id p) = true
  ∧ Forall (λ x, Plain.segment x = true)
           (JS.split "/" (LDR.parsed_document_path p)).
Proof.
  rewrite eval_parse. intros Hp.
  apply outcome_Return_plain in Hp as (P & D & segs & Hne & Hall & ->).
  apply Forall_cons in Hall as [HP Hall].
  apply Forall_cons in Hall as [HD Hsegs]. simpl.
  split_and!; try done.
  rewrite split_join; [done | done | by apply plain_slash_free].
Qed.

End extra_X3.

Section example_X3.
#[local] Existing Instance example_platform.

(** A project with a blank in it comes back percent-encoded. *)
Lemma X3_encoded_example :
  LDR.eval LDR.parse "projects/my proj/databases/d/documents/c/i"
  = LDR.Return {| LDR.parsed_project_id := "my%20proj";
                  LDR.parsed_database_id := "d";
                  LDR.parsed_document_path := "c/i" |}
  ∧ Plain.segment "my%20proj" = true
  ∧ Plain.segment "d" = true
  ∧ Forall (λ x, Plain.segment x = true) (JS.split "/" "c/i").
Proof.
  split; [vm_compute; reflexivity |].
  apply (X3_parsed_parts_are_plain
           "projects/my proj/databases/d/documents/c/i"
           {| LDR.parsed_project_id := "my%20proj";
              LDR.parsed_database_id := "d";
              LDR.parsed_document_path := "c/i" |}).
  vm_compute. reflexivity.
Defined.

End example_X3.

Section extra_X4.
Context {platform : URL.Platform}.

(** X4: when parsing succeeds, [id] is never [undefined]: it returns a
    non-empty string without [/]; and [collectionPath] returns the empty
    string or non-empty segments joined by [/], so it neither starts nor
    ends with [/]. *)
Theorem X4_id_is_a_segment (reference document_path : string) :
  LDR.eval LDR.path reference = LDR.Return document_path →
  (∃ id, LDR.eval LDR.id reference = LDR.Return (Some id)
         ∧ Plain.segment id = true)
  ∧ (∃ collection,
       LDR.eval LDR.collectionPath reference = LDR.Return collection
       ∧ (collection = ""
          ∨ Forall (λ x, Plain.segment x = true) (JS.split "/" collection))).
Proof.
  rewrite eval_path, eval_id, eval_collectionPath. intros Hp.
  destruct (outcome reference) as [p|] eqn:Ho; [|done].
  apply outcome_Return_plain in Ho as (P & D & segs & Hne & Hall & ->).
  apply Forall_cons in Hall as [_ Hall].
  apply Forall_cons in Hall as [_ Hsegs]. simpl.
  rewrite split_join; [| done | by apply plain_slash_free].
  destruct segs as [|x l _] using rev_ind; [done |].
  rewrite last_snoc, removelast_last.
  apply Forall_app in Hsegs as [Hl Hx]. apply Forall_cons in Hx as [Hx _].
  split; [by exists x |].
  exists (JS.join "/" l). split; [done |].
  destruct l as [|y l]; [by left | right].
  rewrite split_join; [done | done | by apply plain_slash_free].
Qed.

End extra_X4.

Section example_X4.
#[local] Existing Instance example_platform.

(** A document of a subcollection. *)
Lemma X4_example :
  LDR.eval LDR.path "projects/p/databases/d/documents/users/u1/posts/p2"
  = LDR.Return "users/u1/posts/p2"
  ∧ (∃ id,
       LDR.eval LDR.id "projects/p/databases/d/documents/users/u1/posts/p2"
       = LDR.Return (Some id)
       ∧ Plain.segment id = true)
  ∧ (∃ collection,
       LDR.eval LDR.collectionPath
         "projects/p/databases/d/documents/users/u1/posts/p2"
       = LDR.Return collection
       ∧ (collection = ""
          ∨ Forall (λ x, Plain.segment x = true) (JS.split "/" collection))).
Proof.
  split; [vm_compute; reflexivity |].
  apply (X4_id_is_a_segment
           "projects/p/databases/d/documents/users/u1/posts/p2"
           "users/u1/posts/p2").
  vm_compute. reflexivity.
Defined.

End example_X4.

(** ** X5: the parts of a reference put together again *)

Section extra_X5.
Context {platform : URL.Platform}.

(** X5: when [parse] returns, the string [projects/], the project,
    [/databases/], the database, [/documents/] and the document path is a
    reference that the URL parser leaves as it is, on which [parse] returns
    the same three parts and every getter what it returns on the reference
    itself. *)
Theorem X5_parts_reassemble (reference : string) (p : LDR.parsed) :
  LDR.eval LDR.parse reference = LDR.Return p →
  let canonical :=
    "projects/" +:+ LDR.parsed_project_id p
    +:+ "/databases/" +:+ LDR.parsed_database_id p
    +:+ "/documents/" +:+ LDR.parsed_document_path p in
  Plain.reference canonical = true
  ∧ LDR.eval LDR.parse canonical = LDR.Return p
  ∧ ∀ a, LDR.eval (LDR.access a) canonical
         = LDR.eval (LDR.access a) reference.
Proof.
  rewrite eval_parse. intros Hp canonical.
  pose proof Hp as Hplain.
  apply outcome_Return_plain in Hplain as (P & D & segs & Hne & Hall & ->).
  change canonical with (reference_of P D segs).
  pose proof (outcome_plain P D segs Hne Hall) as Hcanonical.
  split_and!.
  - unfold Plain.reference. rewrite reference_of_join by done.
    apply Forall_cons in Hall as [HP Hall].
    apply Forall_cons in Hall as [HD Hsegs].
    rewrite split_join; [| done |].
    + apply Forall_forallb. apply segments_inert. by repeat constructor.
    + apply plain_slash_free. by repeat constructor.
  - by rewrite eval_parse.
  - intros a. by rewrite !eval_access, Hcanonical, Hp.
Qed.

End extra_X5.

Section example_X5.
#[local] Existing Instance example_platform.

(** [x/../projects/my proj/databases/d/documents/c/i?v=1] and its parts put
    together again. *)
Lemma X5_example :
  LDR.eval LDR.parse "x/../projects/my proj/databases/d/documents/c/i?v=1"
  = LDR.Return {| LDR.parsed_project_id := "my%20proj";
                  LDR.parsed_database_id := "d";
                  LDR.parsed_document_path := "c/i" |}
  ∧ Plain.reference "projects/my%20proj/databases/d/documents/c/i" = true
  ∧ LDR.eval LDR.parse "projects/my%20proj/databases/d/documents/c/i"
    = LDR.Return {| LDR.parsed_project_id := "my%20proj";
                    LDR.parsed_database_id := "d";
                    LDR.parsed_document_path := "c/i" |}
  ∧ ∀ a, LDR.eval (LDR.access a)
           "projects/my%20proj/databases/d/documents/c/i"
         = LDR.eval (LDR.access a)
             "x/../projects/my proj/databases/d/documents/c/i?v=1".
Proof.
  split; [vm_compute; reflexivity |].
  apply (X5_parts_reassemble
           "x/../projects/my proj/databases/d/documents/c/i?v=1"
           {| LDR.parsed_project_id := "my%20proj";
              LDR.parsed_database_id := "d";
              LDR.parsed_document_path := "c/i" |}).
  vm_compute. reflexivity.
Defined.

End example_X5.

(** ** X6 to X9: what the getters do not see *)

Section extra_X6.
Context {platform : URL.Platform}.

(** X6: behind a reference that does not end in a blank, a [?] or a [#] and
    whatever follows it change no getter: the query and the fragment of the
    URL take no part in the match. *)
Theorem X6_query_and_fragment_are_ignored (reference rest : string)
  (a : LDR.accessor) :
  URL.strip_trailing reference = reference →
  LDR.eval (LDR.access a) (reference +:+ "?" +:+ rest)
  = LDR.eval (LDR.access a) reference
  ∧ LDR.eval (LDR.access a) (reference +:+ "#" +:+ rest)
    = LDR.eval (LDR.access a) reference.
Proof.
  intros Hstrip.
  assert (∀ c, URL.starts_query_or_fragment c = true →
               LDR.eval (LDR.access a) (reference +:+ String c rest)
               = LDR.eval (LDR.access a) reference) as Hcut.
  { intros c Hc. apply same_path_same_access.
    rewrite !path_of_reference. f_equal.
    destruct (query_char_facts c Hc) as [Hblank Htab].
    rewrite strip_trailing_app by by rewrite strip_trailing_cons.
    rewrite strip_trailing_cons, remove_tab_newline_app by done.
    simpl URL.remove_tab_newline at 2. rewrite Htab.
    by rewrite path_state_cut, Hstrip. }
  split; apply Hcut; reflexivity.
Qed.

End extra_X6.

Section example_X6.
#[local] Existing Instance example_platform.

(** [?alt=json] and [#top] behind a reference. *)
Lemma X6_example :
  URL.strip_trailing "projects/p/databases/d/documents/c/i"
  = "projects/p/databases/d/documents/c/i"
  ∧ LDR.eval (LDR.access LDR.get_id)
      ("projects/p/databases/d/documents/c/i" +:+ "?" +:+ "alt=json")
    = LDR.eval (LDR.access LDR.get_id) "projects/p/databases/d/documents/c/i"
  ∧ LDR.eval (LDR.access LDR.get_id)
      ("projects/p/databases/d/documents/c/i" +:+ "#" +:+ "alt=json")
    = LDR.eval (LDR.access LDR.get_id) "projects/p/databases/d/documents/c/i".
Proof.
  split; [reflexivity |].
  apply (X6_query_and_fragment_are_ignored
           "projects/p/databases/d/documents/c/i" "alt=json" LDR.get_id).
  reflexivity.
Defined.

End example_X6.

Section extra_X7.
Context {platform : URL.Platform}.

(** X7: a [\] in a reference is read as a [/]: turning every [\] into [/]
    changes no getter. *)
Theorem X7_backslash_is_a_slash (reference : string) (a : LDR.accessor) :
  LDR.eval (LDR.access a) (slashes reference)
  = LDR.eval (LDR.access a) reference.
Proof.
  apply same_path_same_access. rewrite !path_of_reference. f_equal.
  by rewrite strip_trailing_slashes, remove_tab_newline_slashes,
    path_state_slashes.
Qed.

End extra_X7.

Section extra_X8.
Context {platform : URL.Platform}.

(** X8: C0 controls and spaces at the end of a reference change no
    getter. *)
Theorem X8_trailing_blanks_are_stripped (reference blanks : string)
  (a : LDR.accessor) :
  all_blank blanks = true →
  LDR.eval (LDR.access a) (reference +:+ blanks)
  = LDR.eval (LDR.access a) reference.
Proof.
  intros Hb. apply same_path_same_access. rewrite !path_of_reference.
  by rewrite strip_trailing_app_blank.
Qed.

End extra_X8.

Section example_X8.
#[local] Existing Instance example_platform.

(** Two spaces and a newline behind a reference. *)
Lemma X8_example :
  all_blank (String " " (String " " (String (ascii_of_nat 10) ""))) = true
  ∧ LDR.eval (LDR.access LDR.get_path)
      ("projects/p/databases/d/documents/c/i"
       +:+ String " " (String " " (String (ascii_of_nat 10) "")))
    = LDR.eval (LDR.access LDR.get_path)
        "projects/p/databases/d/documents/c/i".
Proof.
  split; [reflexivity |].
  apply (X8_trailing_blanks_are_stripped
           "projects/p/databases/d/documents/c/i"
           (String " " (String " " (String (ascii_of_nat 10) "")))
           LDR.get_path).
  reflexivity.
Defined.

End example_X8.

Section extra_X9.
Context {platform : URL.Platform}.

(** X9: tabs and newlines change no getter, wherever they are in the
    reference: removing them all gives a reference with the same getters. *)
Theorem X9_tabs_and_newlines_are_removed (reference : string)
  (a : LDR.accessor) :
  LDR.eval (LDR.access a) (URL.remove_tab_newline reference)
  = LDR.eval (LDR.access a) reference.
Proof.
  apply same_path_same_access. rewrite !path_of_reference.
  by rewrite strip_trailing_remove, remove_tab_newline_idemp.
Qed.

End extra_X9.

(** ** X10: empty segments *)

Section extra_X10.
Context {platform : URL.Platform}.

(** X10: a reference [projects/P/databases/D/documents] with nothing behind
    it, or with an empty segment anywhere (an empty project or database, two
    [/] in a row, a [/] at the end), is malformed for every getter; the
    segments are such that the URL parser leaves them as they are. *)
Theorem X10_empty_segment_is_malformed (P D : string)
  (segments : list string) (a : LDR.accessor) :
  Forall (λ x, Plain.inert_segment x = true) (P :: D :: segments) →
  "" ∈ P :: D :: segments ∨ segments = [] →
  LDR.eval (LDR.access a)
    (JS.join "/" ("projects" :: P :: "databases" :: D :: "documents"
                  :: segments))
  = LDR.Throw
      {| LDR.message := "Invalid document path. Path does not match pattern." |}.
Proof.
  intros Hall Hempty. rewrite eval_access. unfold outcome, url_of.
  apply Forall_cons in Hall as [HP Hall].
  apply Forall_cons in Hall as [HD Hsegs].
  rewrite matched_path_inert; [| done | by repeat constructor].
  cbn [mbind option_bind].
  destruct (captured _) as [[[P' D'] segs']|] eqn:Hc; [|done].
  apply captured_nonempty in Hc as (Heq & HP' & HD' & Hne).
  injection Heq as <- <- <-.
  destruct Hempty as [Hin | ->]; [|done]. exfalso.
  apply elem_of_cons in Hin as [<- | Hin]; [done |].
  apply elem_of_cons in Hin as [<- | Hin]; [done |].
  unfold all_nonempty in Hne. rewrite forallb_forall in Hne.
  apply list_elem_of_In, Hne in Hin. done.
Qed.

End extra_X10.

Section example_X10.
#[local] Existing Instance example_platform.

(** A [/] at the end of the reference. *)
Lemma X10_trailing_slash :
  Forall (λ x, Plain.inert_segment x = true) ["p"; "d"; "c"; "i"; ""]
  ∧ ("" ∈ ["p"; "d"; "c"; "i"; ""] ∨ ["c"; "i"; ""] = [])
  ∧ LDR.eval (LDR.access LDR.get_project_id)
      "projects/p/databases/d/documents/c/i/"
    = LDR.Throw
        {| LDR.message := "Invalid document path. Path does not match pattern." |}.
Proof.
  assert (Forall (λ x, Plain.inert_segment x = true) ["p"; "d"; "c"; "i"; ""])
    as Hall by (repeat constructor).
  assert ("" ∈ ["p"; "d"; "c"; "i"; ""] ∨ ["c"; "i"; ""] = []) as Hempty.
  { left. apply list_elem_of_In. simpl. tauto. }
  split; [exact Hall |]. split; [exact Hempty |].
  exact (X10_empty_segment_is_malformed "p" "d" ["c"; "i"; ""]
           LDR.get_project_id Hall Hempty).
Defined.

End example_X10.

(** ** X11: dot segments in front *)

Section extra_X11.
Context {platform : URL.Platform}.

(** X11: in front of a reference, [./] and [../] change no getter, and
    neither does a plain segment followed by [/../]: the URL parser resolves
    dot segments before the pattern is tried, and [..] does not go above
    the root. *)
Theorem X11_leading_dot_segments_are_resolved (x reference : string)
  (a : LDR.accessor) :
  Plain.segment x = true →
  LDR.eval (LDR.access a) ("./" +:+ reference)
  = LDR.eval (LDR.access a) reference
  ∧ LDR.eval (LDR.access a) ("../" +:+ reference)
    = LDR.eval (LDR.access a) reference
  ∧ LDR.eval (LDR.access a) (x +:+ "/../" +:+ reference)
    = LDR.eval (LDR.access a) reference.
Proof.
  intros Hx. split_and!; apply same_path_same_access.
  - rewrite (path_state_prefix "./") by done. by rewrite path_of_reference.
  - rewrite (path_state_prefix "../") by done. by rewrite path_of_reference.
  - pose proof (inert_segment_chars x (segment_inert x Hx)) as Hchars.
    replace (x +:+ "/../" +:+ reference)
      with ((x +:+ "/../") +:+ reference) by apply str_app_assoc.
    rewrite (path_state_prefix (x +:+ "/../")).
    + rewrite path_of_reference, str_app_assoc. f_equal.
      rewrite path_state_chars by done. string_app. simpl.
      rewrite (end_segment_inert [] x) by by apply segment_inert.
      reflexivity.
    + by rewrite no_blank_app, chars_no_blank.
Qed.

End extra_X11.

Section example_X11.
#[local] Existing Instance example_platform.

(** [tmp/../] in front of a reference. *)
Lemma X11_example :
  Plain.segment "tmp" = true
  ∧ LDR.eval (LDR.access LDR.get_id)
      ("./" +:+ "projects/p/databases/d/documents/c/i")
    = LDR.eval (LDR.access LDR.get_id) "projects/p/databases/d/documents/c/i"
  ∧ LDR.eval (LDR.access LDR.get_id)
      ("../" +:+ "projects/p/databases/d/documents/c/i")
    = LDR.eval (LDR.access LDR.get_id) "projects/p/databases/d/documents/c/i"
  ∧ LDR.eval (LDR.access LDR.get_id)
      ("tmp" +:+ "/../" +:+ "projects/p/databases/d/documents/c/i")
    = LDR.eval (LDR.access LDR.get_id) "projects/p/databases/d/documents/c/i".
Proof.
  split; [reflexivity |].
  apply (X11_leading_dot_segments_are_resolved "tmp"
           "projects/p/databases/d/documents/c/i" LDR.get_id).
  reflexivity.
Defined.

End example_X11.

(** ** X12: the reference of a child *)

Section extra_X12.
Context {platform : URL.Platform}.


End extra_X12.

Section example_X12.
#[local] Existing Instance example_platform.


End example_X12.

(** ** X13: the getters of a reference of plain segments *)

Section extra_X13.
Context {platform : URL.Platform}.

(** X13: for the reference [projects/P/databases/D/documents/] followed by
    one or more segments joined by [/], all segments non-empty, made of
    characters that the URL parser leaves as they are in a path, and not
    dot segments, the getters return [P], [D], the joined segments, the
    last segment, and the segments before it joined by [/]. *)
Theorem X13_getters_of_plain_reference (P D : string)
  (segments : list string) :
  segments ≠ [] →
  Forall (λ x, Plain.segment x = true) (P :: D :: segments) →
  let reference :=
    "projects/" +:+ P +:+ "/databases/" +:+ D +:+ "/documents/"
    +:+ JS.join "/" segments in
  LDR.eval LDR.project_id reference = LDR.Return P
  ∧ LDR.eval LDR.database_id reference = LDR.Return D
  ∧ LDR.eval LDR.path reference = LDR.Return (JS.join "/" segments)
  ∧ LDR.eval LDR.id reference = LDR.Return (last segments)
  ∧ LDR.eval LDR.collectionPath reference
    = LDR.Return (JS.join "/" (removelast segments)).
Proof.
  intros Hne Hall reference.
  pose proof (outcome_plain P D segments Hne Hall) as Hparse.
  change (reference_of P D segments) with reference in Hparse.
  rewrite eval_project_id, eval_database_id, eval_path, eval_id,
    eval_collectionPath, Hparse. simpl.
  rewrite split_join; [done | done |].
  apply plain_slash_free.
  apply Forall_cons in Hall as [_ Hall]. by apply Forall_cons in Hall as [_ ?].
Qed.

End extra_X13.

Section example_X13.
#[local] Existing Instance example_platform.

(** The two references that the specification names:
    [projects/my-proj/databases/(default)/documents/cities/LA] and
    [projects/p1/databases/(default)/documents/users/u1/posts/p2]. *)
Lemma X13_scenarios :
  (["cities"; "LA"] ≠ []
   ∧ Forall (λ x, Plain.segment x = true)
            ["my-proj"; "(default)"; "cities"; "LA"]
   ∧ LDR.eval LDR.project_id
       "projects/my-proj/databases/(default)/documents/cities/LA"
     = LDR.Return "my-proj"
   ∧ LDR.eval LDR.database_id
       "projects/my-proj/databases/(default)/documents/cities/LA"
     = LDR.Return "(default)"
   ∧ LDR.eval LDR.path
       "projects/my-proj/databases/(default)/documents/cities/LA"
     = LDR.Return "cities/LA"
   ∧ LDR.eval LDR.id
       "projects/my-proj/databases/(default)/documents/cities/LA"
     = LDR.Return (Some "LA")
   ∧ LDR.eval LDR.collectionPath
       "projects/my-proj/databases/(default)/documents/cities/LA"
     = LDR.Return "cities")
  ∧ LDR.eval LDR.id
      "projects/p1/databases/(default)/documents/users/u1/posts/p2"
    = LDR.Return (Some "p2")
  ∧ LDR.eval LDR.collectionPath
      "projects/p1/databases/(default)/documents/users/u1/posts/p2"
    = LDR.Return "users/u1/posts".
Proof.
  split.
  - split; [discriminate |]. split; [repeat constructor |].
    apply (X13_getters_of_plain_reference "my-proj" "(default)"
             ["cities"; "LA"]); [discriminate | repeat constructor].
  - apply (X13_getters_of_plain_reference "p1" "(default)"
             ["users"; "u1"; "posts"; "p2"]);
      [discriminate | repeat constructor].
Defined.

End example_X13.

(** ** X14: what [parse] is anchored to *)

Section extra_X14.
Context {platform : URL.Platform}.

(** X14: [parse] returns a result exactly when the canonical pathname of
    [https://hostname/] followed by the stored string, in full, is
    [/projects/], the project, [/databases/], the database, [/documents/]
    and the document path of the result, all segments non-empty; the match
    is anchored to that pathname, with nothing before, between or after.
    When there is no such result, every getter throws the one error. *)
Theorem X14_parse_matches_the_canonical_pathname (reference : string)
  (p : LDR.parsed) :
  (LDR.eval LDR.parse reference = LDR.Return p
   ↔ ∃ pathname text segments,
       URL.pathname ("https://hostname/" +:+ reference) = Some pathname
       ∧ URLPattern.canonicalize_pathname pathname = Some text
       ∧ Grammar.matches "/" text (LDR.parsed_project_id p)
                         (LDR.parsed_database_id p) segments
       ∧ segments ≠ []
       ∧ LDR.parsed_document_path p = JS.join "/" segments
       ∧ text = "/projects/" +:+ LDR.parsed_project_id p
                +:+ "/databases/" +:+ LDR.parsed_database_id p
                +:+ "/documents/" +:+ LDR.parsed_document_path p)
  ∧ ∀ a, (¬ ∃ p', LDR.eval LDR.parse reference = LDR.Return p') →
         LDR.eval (LDR.access a) reference
         = LDR.Throw
             {| LDR.message :=
                  "Invalid document path. Path does not match pattern." |}.
Proof.
  rewrite eval_parse. split; [split |].
  - intros Hp.
    apply outcome_Return in Hp as (P & D & segs & Hne & Hpath & Hall & ->).
    pose proof (matched_pathname_serialize (url_of reference)) as Htext.
    rewrite Hpath in Htext. unfold matched_pathname in Htext.
    destruct (URL.pathname (url_of reference)) as [pathname|] eqn:Hpathname;
      [|done].
    exists pathname, (URL.serialize_path
                        ("projects" :: P :: "databases" :: D :: "documents"
                         :: segs)), segs.
    apply Forall_cons in Hall as [HP Hall].
    apply Forall_cons in Hall as [HD Hall].
    split_and!; try done.
    + unfold Grammar.matches. split_and!; try done. apply serialize_shape.
    + simpl LDR.parsed_project_id. simpl LDR.parsed_database_id.
      simpl LDR.parsed_document_path.
      rewrite serialize_shape. destruct segs; [done |]. by string_app.
  - intros (pathname & text & segs & Hpathname & Htext & Hmatch & Hne & Hdoc
            & _).
    assert (matched_pathname (url_of reference) = Some text) as Hm.
    { unfold matched_pathname, url_of. by rewrite Hpathname. }
    rewrite matched_pathname_serialize in Hm.
    destruct (matched_path _) as [path|] eqn:Hpath; [|done].
    injection Hm as <-.
    apply captured_matches in Hmatch; [|by eapply matched_path_slash_free].
    unfold outcome. rewrite Hpath. cbn [mbind option_bind].
    rewrite Hmatch. destruct segs as [|seg segs]; [done |].
    destruct p as [P D doc]. simpl in *. by subst doc.
  - intros a Hno. rewrite eval_access.
    destruct (outcome reference) as [p'|e] eqn:Hp.
    + destruct Hno. by exists p'.
    + by apply outcome_Throw in Hp as ->.
Qed.

End extra_X14.

(** ** X15: a reference that starts with a slash *)

Section extra_X15.
Context {platform : URL.Platform}.

(** X15: a [/] and a plain segment in front of a reference make a pathname
    that starts with [//]: parsed once more, the segment is taken for an
    authority. Where the platform accepts it as one, the segment is lost
    and every getter does what it does on the reference; where the
    platform does not, every getter throws. The reference is one that the
    URL parser leaves as it is, of segments [seg], not empty, and
    [segments]. *)
Theorem X15_leading_slash_starts_an_authority (x seg : string)
  (segments : list string) (a : LDR.accessor) :
  Plain.segment x = true →
  seg ≠ "" →
  Forall (λ s, Plain.inert_segment s = true) (seg :: segments) →
  LDR.eval (LDR.access a) ("/" +:+ x +:+ "/" +:+ JS.join "/" (seg :: segments))
  = if URL.accepts_authority x
    then LDR.eval (LDR.access a) (JS.join "/" (seg :: segments))
    else LDR.Throw
           {| LDR.message :=
                "Invalid document path. Path does not match pattern." |}.
Proof.
  intros Hx Hseg Hall.
  pose proof (plain_segment_facts x Hx) as [Hxne _].
  assert (matched_path
            (url_of ("/" +:+ x +:+ "/" +:+ JS.join "/" (seg :: segments)))
          = if URL.accepts_authority x then Some (seg :: segments) else None)
    as Hslash.
  { rewrite matched_path_rebase. unfold url_of.
    change ("/" +:+ x +:+ "/" +:+ JS.join "/" (seg :: segments))
      with (JS.join "/" ("" :: x :: seg :: segments)).
    rewrite path_inert;
      [| done
       | constructor; [done |]; constructor; [by apply segment_inert | done]].
    cbn [mbind option_bind]. unfold rebase.
    destruct x as [|c x]; [done |].
    change (drop_empty (String c x :: seg :: segments))
      with (String c x :: seg :: segments).
    done. }
  assert (matched_path (url_of (JS.join "/" (seg :: segments)))
          = Some (seg :: segments)) as Hplain
    by by apply matched_path_inert.
  rewrite !eval_access. unfold outcome. rewrite Hslash, Hplain.
  by destruct (URL.accepts_authority x).
Qed.

End extra_X15.

Section example_X15.
#[local] Existing Instance example_platform.

(** [/x/] in front of a reference: the host name [x] is accepted as an
    authority, and [id] returns [i] as it does without it. *)
Lemma X15_example :
  Plain.segment "x" = true
  ∧ "projects" ≠ ""
  ∧ Forall (λ s, Plain.inert_segment s = true)
           ["projects"; "p"; "databases"; "d"; "documents"; "c"; "i"]
  ∧ LDR.eval (LDR.access LDR.get_id)
      "/x/projects/p/databases/d/documents/c/i"
    = LDR.Return (Some "i").
Proof.
  split; [reflexivity |]. split; [discriminate |].
  split; [repeat constructor |].
  exact (X15_leading_slash_starts_an_authority "x" "projects"
           ["p"; "databases"; "d"; "documents"; "c"; "i"] LDR.get_id
           eq_refl ltac:(discriminate) ltac:(repeat constructor)).
Defined.

End example_X15.
